(** * Bidi-Parser: the grammar combinators of [main.cpp]

    A shallow embedding of the matching engine of [main.cpp]: the grammar
    classes [Start], [End], [Char], [CharRange], [Plus], [Asterisk], [Seq],
    [Ord], the named rules introduced with the [CLAUSE] macro, and the
    method [topdown_match] that every one of them overrides.

    In the C++ program a grammar is a type and [Clause().topdown_match]
    is resolved statically; here a grammar is a value of [Grammar] and
    [topdown_match] interprets it.  The C++ recursion is unbounded (the
    [while] loops of [Plus] and [Asterisk], the mutually recursive rules of
    the arithmetic grammar), so the interpreter takes fuel and a run is a
    value of [run]: a returned [std::optional<size_t>], a read outside the
    array the [string_view] points into (where the behaviour of the program
    is undefined), or fuel exhausted. *)

From Stdlib Require Import NArith ZArith List String Ascii Bool Lia.
Import ListNotations.

Local Open Scope N_scope.

(** ** Machine integers and characters *)

(** [size_t] is a 64-bit unsigned integer; [+] and [+=] wrap around. *)
Definition size_t := N.

Definition SIZE_WIDTH : N := 64.

Definition size_add (a b : size_t) : size_t := (a + b) mod 2 ^ SIZE_WIDTH.

Definition is_size_t (a : N) : Prop := a < 2 ^ SIZE_WIDTH.

(** A [char] is the integer it promotes to in a comparison. *)
Definition char := Z.

(** The value of the plain [char] holding a given byte ([char] is signed
    on the platforms the program is built for; the characters of the
    arithmetic grammar are below 128, where signedness plays no role). *)
Definition char_of_ascii (a : ascii) : char :=
  let n := Z.of_N (N_of_ascii a) in
  if (n <? 128)%Z then n else (n - 256)%Z.

(** ** [std::string_view] *)

(** A view is a pointer and a length.  [operator[]] does no bounds
    check: [context[index]] reads [data()[index]].  [sv_data] is the array
    the pointer points into, from the first character of the view to the
    end of the array; a read at an index inside it returns what is stored
    there, also when the index is at or past [sv_size]. *)
Record string_view : Type := mk_string_view {
  sv_data : list char;
  sv_size : size_t
}.

Definition sv_at (context : string_view) (index : size_t) : option char :=
  nth_error (sv_data context) (N.to_nat index).

(** The number of characters that can be read through the view. *)
Definition array_len (context : string_view) : N :=
  N.of_nat (List.length (sv_data context)).

(** A view is well formed when it lies inside its array and the array
    fits the address space. *)
Definition sv_wf (context : string_view) : Prop :=
  sv_size context <= array_len context /\
  is_size_t (array_len context).

(** [std::char_traits<char>::length]: the number of characters before the
    first zero. *)
Fixpoint strlen (cs : list char) : size_t :=
  match cs with
  | [] => 0
  | c :: cs' => if (c =? 0)%Z then 0 else N.succ (strlen cs')
  end.

Fixpoint chars_of_string (s : string) : list char :=
  match s with
  | EmptyString => []
  | String a s' => char_of_ascii a :: chars_of_string s'
  end.

(** The conversion of a string literal to a view, as in the call of
    [main]: the array of the literal ends with a zero character, and the
    constructor of a view from a character pointer measures it with [strlen]. *)
Definition sv_of_literal (s : string) : string_view :=
  let arr := chars_of_string s ++ [0%Z] in
  {| sv_data := arr; sv_size := strlen arr |}.

(** The view of the first [n] characters of a literal, as
    [std::string_view(s, n)] builds it. *)
Definition sv_of_prefix (s : string) (n : size_t) : string_view :=
  {| sv_data := chars_of_string s ++ [0%Z]; sv_size := n |}.

(** A view of exactly the characters of its array, with nothing readable
    behind it. *)
Definition sv_exact (cs : list char) : string_view :=
  {| sv_data := cs; sv_size := N.of_nat (List.length cs) |}.

(** ** Runs *)

Inductive run (A : Type) : Type :=
| Done (a : A)
| Undefined
| OutOfFuel.

Arguments Done {A} a.
Arguments Undefined {A}.
Arguments OutOfFuel {A}.

Definition bind {A B : Type} (r : run A) (k : A -> run B) : run B :=
  match r with
  | Done a => k a
  | Undefined => Undefined
  | OutOfFuel => OutOfFuel
  end.

Notation "x <- r ;; k" := (bind r (fun x => k))
  (at level 61, r at next level, right associativity).

(** ** Grammars *)

(** [Name] is the type of the rules declared with [CLAUSE]. *)
#[warnings="-register-all"]
Inductive Grammar (Name : Type) : Type :=
| Start
| End
| Char (C : char)
| CharRange (S T : char)
| Plus (Clause : Grammar Name)
| Asterisk (Clause : Grammar Name)
| Seq (Clause0 : Grammar Name) (Clauses : list (Grammar Name))
| Ord (Clause0 : Grammar Name) (Clauses : list (Grammar Name))
| Rule (name : Name).

Arguments Start {Name}.
Arguments End {Name}.
Arguments Char {Name} C.
Arguments CharRange {Name} S T.
Arguments Plus {Name} Clause.
Arguments Asterisk {Name} Clause.
Arguments Seq {Name} Clause0 Clauses.
Arguments Ord {Name} Clause0 Clauses.
Arguments Rule {Name} name.

(** The result of a call of [topdown_match]. *)
Definition matched := run (option size_t).

(** The [while (current)] loop of [Plus::topdown_match]; [m] is
    [Clause().topdown_match(context, _)]. *)
Fixpoint plus_loop (m : size_t -> matched) (fuel : nat) (index count : size_t)
    (flag : bool) (current : option size_t) : matched :=
  match current with
  | None => Done (if flag then Some count else None)
  | Some c =>
      match fuel with
      | O => OutOfFuel
      | S fuel' =>
          let count' := size_add count c in
          current' <- m (size_add index count') ;;
          plus_loop m fuel' index count' true current'
      end
  end.

(** The [while (current)] loop of [Asterisk::topdown_match]. *)
Fixpoint asterisk_loop (m : size_t -> matched) (fuel : nat)
    (index count : size_t) (current : option size_t) : matched :=
  match current with
  | None => Done (Some count)
  | Some c =>
      match fuel with
      | O => OutOfFuel
      | S fuel' =>
          let count' := size_add count c in
          current' <- m (size_add index count') ;;
          asterisk_loop m fuel' index count' current'
      end
  end.

(** [Seq<Clause0, Clauses...>::topdown_match], by recursion on the base
    classes down to [Seq<Clause>]; [m g] is [g().topdown_match(context, _)]. *)
Fixpoint seq_match {Name : Type} (m : Grammar Name -> size_t -> matched)
    (Clause0 : Grammar Name) (Clauses : list (Grammar Name))
    (index : size_t) : matched :=
  match Clauses with
  | [] => m Clause0 index
  | Clause1 :: Clauses' =>
      fst <- m Clause0 index ;;
      match fst with
      | Some f =>
          snd <- seq_match m Clause1 Clauses' (size_add index f) ;;
          Done (match snd with
                | Some s => Some (size_add f s)
                | None => None
                end)
      | None => Done None
      end
  end.

(** [Ord<Clause0, Clauses...>::topdown_match]. *)
Fixpoint ord_match {Name : Type} (m : Grammar Name -> size_t -> matched)
    (Clause0 : Grammar Name) (Clauses : list (Grammar Name))
    (index : size_t) : matched :=
  match Clauses with
  | [] => m Clause0 index
  | Clause1 :: Clauses' =>
      fst <- m Clause0 index ;;
      match fst with
      | Some f => Done (Some f)
      | None => ord_match m Clause1 Clauses' index
      end
  end.

Section Engine.

Variable Name : Type.

(** [CLAUSE(Name, Base)] declares [class Name : public Base]; the rule
    inherits [topdown_match] from [base name]. *)
Variable base : Name -> Grammar Name.

Fixpoint topdown_match (fuel : nat) (g : Grammar Name)
    (context : string_view) (index : size_t) : matched :=
  match fuel with
  | O => OutOfFuel
  | S fuel' =>
      match g with
      | Start => Done (if index =? 0 then Some 0 else None)
      | End => Done (if sv_size context <=? index then Some 0 else None)
      | Char C =>
          match sv_at context index with
          | Some c => Done (if (c =? C)%Z then Some 1 else None)
          | None => Undefined
          end
      | CharRange S' T' =>
          match sv_at context index with
          | Some c =>
              Done (if ((S' <=? c)%Z && (c <=? T')%Z)%bool
                    then Some 1 else None)
          | None => Undefined
          end
      | Plus Clause =>
          let m := topdown_match fuel' Clause context in
          current <- m (size_add index 0) ;;
          plus_loop m fuel' index 0 false current
      | Asterisk Clause =>
          let m := topdown_match fuel' Clause context in
          current <- m (size_add index 0) ;;
          asterisk_loop m fuel' index 0 current
      | Seq Clause0 Clauses =>
          seq_match (fun g' => topdown_match fuel' g' context)
                    Clause0 Clauses index
      | Ord Clause0 Clauses =>
          ord_match (fun g' => topdown_match fuel' g' context)
                    Clause0 Clauses index
      | Rule name => topdown_match fuel' (base name) context index
      end
  end.

(** [returns g context index out]: the call
    [g().topdown_match(context, index)] ends with [out], which is a
    returned optional or a read outside the array. *)
Definition returns (g : Grammar Name) (context : string_view)
    (index : size_t) (out : matched) : Prop :=
  out <> OutOfFuel /\ exists fuel, topdown_match fuel g context index = out.

End Engine.

Arguments topdown_match {Name} base fuel g context index.
Arguments returns {Name} base g context index out.

(** ** What the calls return *)

(** The result of the loops from the final count. *)
Definition lift (out : run size_t) : matched :=
  match out with
  | Done count => Done (Some count)
  | Undefined => Undefined
  | OutOfFuel => OutOfFuel
  end.

(** The final count of a loop that ran after [k] was consumed. *)
Definition shift_total (k : size_t) (out : run size_t) : run size_t :=
  match out with
  | Done t => Done (size_add k t)
  | Undefined => Undefined
  | OutOfFuel => OutOfFuel
  end.

(** What [Seq<a, b>] makes of the result [ra] of [a] and the results of
    [b]. *)
Definition seq_after (rb : size_t -> matched -> Prop) (index : size_t)
    (ra : matched) (out : matched) : Prop :=
  match ra with
  | Done (Some ka) =>
      exists r, rb (size_add index ka) r /\
                out = (snd <- r ;; Done (option_map (size_add ka) snd))
  | Done None => out = Done None
  | Undefined => out = Undefined
  | OutOfFuel => False
  end.

(** What [Ord<a, b>] makes of the result [ra] of [a] and the results of
    [b]. *)
Definition ord_after (rb : size_t -> matched -> Prop) (index : size_t)
    (ra : matched) (out : matched) : Prop :=
  match ra with
  | Done (Some ka) => out = Done (Some ka)
  | Done None => rb index out
  | Undefined => out = Undefined
  | OutOfFuel => False
  end.

Section Semantics.

Variable Name : Type.
Variable base : Name -> Grammar Name.
Variable context : string_view.
Variable sub : Grammar Name.

(** [loop_ends index count out]: the [while] loop of [Plus<sub>] or
    [Asterisk<sub>], entered with the running total [count], [current]
    being the result of [sub] at [index + count], ends with [out]: the
    final count when [sub] fails, or a read outside the array. *)
Inductive loop_ends (index : size_t) : size_t -> run size_t -> Prop :=
| loop_stop count :
    returns base sub context (size_add index count) (Done None) ->
    loop_ends index count (Done count)
| loop_undefined count :
    returns base sub context (size_add index count) Undefined ->
    loop_ends index count Undefined
| loop_again count k out :
    returns base sub context (size_add index count) (Done (Some k)) ->
    loop_ends index (size_add count k) out ->
    loop_ends index count out.

(** The loop as [Asterisk] and [Plus] run it: the call of [sub] that
    computes [current], then the loop. *)
Definition run_loop (f1 f2 : nat) (index count : size_t) : matched :=
  current <- topdown_match base f1 sub context (size_add index count) ;;
  asterisk_loop (topdown_match base f1 sub context) f2 index count current.

(** What [Plus] makes of the first result [r1] of [sub]. *)
Definition plus_after (index : size_t) (r1 : matched) (o : matched) : Prop :=
  match r1 with
  | Done (Some k) =>
      exists out, loop_ends index (size_add 0 k) out /\ o = lift out
  | Done None => o = Done None
  | Undefined => o = Undefined
  | OutOfFuel => False
  end.

(** [iterations index count ks]: entered with the running total [count],
    the loop makes the successful iterations that consume [ks], one
    after the other. *)
Inductive iterations (index : size_t) : size_t -> list size_t -> Prop :=
| iterations_nil count : iterations index count []
| iterations_cons count k ks :
    returns base sub context (size_add index count) (Done (Some k)) ->
    iterations index (size_add count k) ks ->
    iterations index count (k :: ks).

End Semantics.

Arguments loop_ends {Name} base context sub index _ _.
Arguments loop_stop {Name} base context sub index count _.
Arguments loop_undefined {Name} base context sub index count _.
Arguments loop_again {Name} base context sub index count k out _ _.
Arguments run_loop {Name} base context sub f1 f2 index count.
Arguments plus_after {Name} base context sub index r1 o.
Arguments iterations {Name} base context sub index _ _.
Arguments iterations_nil {Name} base context sub index count.
Arguments iterations_cons {Name} base context sub index count k ks _ _.

(** [count += *current] over the iterations. *)
Definition accumulate (count : size_t) (ks : list size_t) : size_t :=
  fold_left size_add ks count.

(** ** Fuel and bounds *)

(** [m'] returns what [m] returns. *)
Definition refines (m m' : size_t -> matched) : Prop :=
  forall index out, m index = out -> out <> OutOfFuel -> m' index = out.

Definition refines_all {Name : Type}
    (m m' : Grammar Name -> size_t -> matched) : Prop :=
  forall g, refines (m g) (m' g).

(** Every character a successful match consumes was read from the array:
    a result [Matched k] at [index] has [k = 0] or [index + k] at most the
    length of the array. *)
Definition in_array (len : N) (index : size_t) (r : matched) : Prop :=
  match r with
  | Done (Some k) => k = 0 \/ index + k <= len
  | _ => True
  end.

Definition keeps_in_array (len : N) (m : size_t -> matched) : Prop :=
  forall index, is_size_t index -> in_array len index (m index).

(** ** The arithmetic grammar of [main.cpp] *)

Inductive ArithRule : Type :=
| Digit | Number | Additive | Multicative | Primary | Toplevel.

(** The character literal ['c'], written [lit "c"]. *)
Definition lit (s : string) : char :=
  match s with
  | String a _ => char_of_ascii a
  | EmptyString => 0%Z
  end.

Definition arith_base (name : ArithRule) : Grammar ArithRule :=
  match name with
  | Digit => CharRange (lit "0") (lit "9")
  | Number => Plus (Rule Digit)
  | Additive =>
      Ord (Seq (Rule Multicative) [Char (lit "+"); Rule Additive])
          [Rule Multicative]
  | Multicative =>
      Ord (Seq (Rule Primary) [Char (lit "*"); Rule Multicative])
          [Rule Primary]
  | Primary =>
      Ord (Seq (Char (lit "(")) [Rule Additive; Char (lit ")")])
          [Rule Number]
  | Toplevel => Seq Start [Rule Additive; End]
  end.

(** The input of [main], in
    [Toplevel().topdown_match("(1+1)+1*(5+5)", 0)]. *)
Definition main_context : string_view := sv_of_literal "(1+1)+1*(5+5)".

(** [c] fails at [index]. *)
Definition fails_at {Name : Type} (base : Name -> Grammar Name)
    (context : string_view) (index : size_t) (c : Grammar Name) : Prop :=
  returns base c context index (Done None).

(** The consumed lengths that [m] returns are [size_t] values. *)
Definition small_results (m : size_t -> matched) : Prop :=
  forall i k, m i = Done (Some k) -> is_size_t k.

(** ** Results of calls that return *)

(** [inside] holds of the offsets that calls are made at, and [may_leave]
    says whether a call may end at a read outside the array.
    [rule_result] is the result of a call that, when it succeeds, consumes
    at least 1 and ends inside the array at an offset of [inside]. *)
Definition rule_result (context : string_view) (inside : N -> Prop)
    (may_leave : Prop) (i : size_t) (out : matched) : Prop :=
  out = Done None \/
  (exists k, out = Done (Some k) /\ 1 <= k /\
             i + k <= array_len context /\ inside (i + k)) \/
  (out = Undefined /\ may_leave).

Definition returns_well {Name : Type} (base : Name -> Grammar Name)
    (context : string_view) (inside : N -> Prop) (may_leave : Prop)
    (g : Grammar Name) (i : size_t) : Prop :=
  exists out, returns base g context i out /\
              rule_result context inside may_leave i out.

(** ** Runs of characters *)

(** The test of [CharRange<S, T>] on a character. *)
Definition in_range (lo hi : char) (c : char) : bool :=
  ((lo <=? c)%Z && (c <=? hi)%Z)%bool.

(** The number of leading characters of [cs] that pass [p]. *)
Fixpoint run_length (p : char -> bool) (cs : list char) : N :=
  match cs with
  | [] => 0
  | c :: cs' => if p c then N.succ (run_length p cs') else 0
  end.

(** The sum of consumed lengths, without wrap-around. *)
Definition plain_sum (ks : list size_t) : N := fold_right N.add 0 ks.

(** ** The memo key *)

(** Unary minus on [size_t]. *)
Definition size_neg (a : size_t) : size_t :=
  (2 ^ SIZE_WIDTH - a) mod 2 ^ SIZE_WIDTH.

(** [struct MemoKey]; the pointer is its address. *)
Record MemoKey : Type := mk_MemoKey {
  instance : N;
  index : size_t
}.

Section Hasher.

(** [std::hash<void *>] and [std::hash<size_t>], which the standard leaves
    to the implementation. *)
Variable hash_ptr : N -> size_t.
Variable hash_size : size_t -> size_t.

(** [MemoKeyHasher::operator()]. *)
Definition MemoKeyHasher (key : MemoKey) : size_t :=
  N.lxor (hash_ptr (instance key)) (hash_size (size_neg (index key))).

End Hasher.

(** * Properties *)

(** ** Arithmetic of [size_t] *)

Lemma size_add_is_size_t (a b : size_t) : is_size_t (size_add a b).
Proof.
  unfold is_size_t, size_add. apply N.mod_lt. discriminate.
Qed.

Lemma size_add_0_r (a : size_t) : is_size_t a -> size_add a 0 = a.
Proof.
  unfold is_size_t, size_add. intros Ha.
  rewrite N.add_0_r. apply N.mod_small. exact Ha.
Qed.

Lemma size_add_comm (a b : size_t) : size_add a b = size_add b a.
Proof.
  unfold size_add. now rewrite N.add_comm.
Qed.

Lemma size_add_assoc (a b c : size_t) :
  size_add (size_add a b) c = size_add a (size_add b c).
Proof.
  unfold size_add.
  rewrite N.Div0.add_mod_idemp_l, N.Div0.add_mod_idemp_r.
  now rewrite N.add_assoc.
Qed.

Lemma size_add_small (a b : size_t) :
  is_size_t (a + b) -> size_add a b = a + b.
Proof.
  unfold is_size_t, size_add. intros H. now apply N.mod_small.
Qed.

(** ** The loop of [Plus] is the loop of [Asterisk] with a flag *)

Lemma plus_loop_flagged (m : size_t -> matched) (fuel : nat) :
  forall index count current,
    plus_loop m fuel index count true current =
    asterisk_loop m fuel index count current.
Proof.
  induction fuel as [|fuel IH]; intros index count [c|]; simpl; try reflexivity.
  destruct (m (size_add index (size_add count c))) as [cur| |]; simpl;
    try reflexivity.
  apply IH.
Qed.

Lemma plus_loop_entered (m : size_t -> matched) (fuel : nat) :
  forall index count flag c,
    plus_loop m fuel index count flag (Some c) =
    asterisk_loop m fuel index count (Some c).
Proof.
  destruct fuel as [|fuel]; intros index count flag c; simpl; try reflexivity.
  destruct (m (size_add index (size_add count c))) as [cur| |]; simpl;
    try reflexivity.
  apply plus_loop_flagged.
Qed.

(** ** More fuel does not change a result *)

Lemma asterisk_loop_mono (m m' : size_t -> matched) :
  refines m m' ->
  forall fuel fuel' index count current out,
    (fuel <= fuel')%nat ->
    asterisk_loop m fuel index count current = out ->
    out <> OutOfFuel ->
    asterisk_loop m' fuel' index count current = out.
Proof.
  intros Hm. induction fuel as [|fuel IH];
    intros fuel' index count [c|] out Hle Hrun Hout;
    try (destruct fuel'; simpl in *; congruence).
  destruct fuel' as [|fuel']; [lia|].
  simpl in *.
  destruct (m (size_add index (size_add count c))) as [cur| |] eqn:Em;
    simpl in Hrun; try congruence.
  - rewrite (Hm _ _ Em) by discriminate. simpl.
    apply (IH fuel'); [lia|exact Hrun|exact Hout].
  - rewrite (Hm _ _ Em) by discriminate. exact Hrun.
Qed.

Lemma plus_loop_mono (m m' : size_t -> matched) :
  refines m m' ->
  forall fuel fuel' index count flag current out,
    (fuel <= fuel')%nat ->
    plus_loop m fuel index count flag current = out ->
    out <> OutOfFuel ->
    plus_loop m' fuel' index count flag current = out.
Proof.
  intros Hm fuel fuel' index count flag [c|] out Hle Hrun Hout.
  - rewrite plus_loop_entered in *.
    now apply (asterisk_loop_mono m m' Hm fuel fuel').
  - destruct fuel, fuel'; simpl in *; congruence.
Qed.

Section Monotone.

Variable Name : Type.

Lemma seq_match_mono (m m' : Grammar Name -> size_t -> matched) :
  refines_all m m' ->
  forall Clauses Clause0, refines (seq_match m Clause0 Clauses)
                                  (seq_match m' Clause0 Clauses).
Proof.
  intros Hm. induction Clauses as [|Clause1 Clauses IH];
    intros Clause0 index out Hrun Hout; simpl in *.
  - now apply Hm.
  - destruct (m Clause0 index) as [[f|]| |] eqn:Em; simpl in Hrun;
      try congruence;
      rewrite (Hm _ _ _ Em) by discriminate; simpl; try exact Hrun.
    destruct (seq_match m Clause1 Clauses (size_add index f))
      as [snd| |] eqn:Es; simpl in Hrun; try congruence;
      rewrite (IH _ _ _ Es) by discriminate; exact Hrun.
Qed.

Lemma ord_match_mono (m m' : Grammar Name -> size_t -> matched) :
  refines_all m m' ->
  forall Clauses Clause0, refines (ord_match m Clause0 Clauses)
                                  (ord_match m' Clause0 Clauses).
Proof.
  intros Hm. induction Clauses as [|Clause1 Clauses IH];
    intros Clause0 index out Hrun Hout; simpl in *.
  - now apply Hm.
  - destruct (m Clause0 index) as [[f|]| |] eqn:Em; simpl in Hrun;
      try congruence;
      rewrite (Hm _ _ _ Em) by discriminate; simpl; try exact Hrun.
    now apply IH.
Qed.

Variable base : Name -> Grammar Name.

Lemma topdown_match_mono (fuel : nat) :
  forall fuel' g context index out,
    (fuel <= fuel')%nat ->
    topdown_match base fuel g context index = out ->
    out <> OutOfFuel ->
    topdown_match base fuel' g context index = out.
Proof.
  induction fuel as [|fuel IH];
    intros fuel' g context index out Hle Hrun Hout.
  - simpl in Hrun. congruence.
  - destruct fuel' as [|fuel']; [lia|].
    assert (Hsub : forall g', refines (topdown_match base fuel g' context)
                                      (topdown_match base fuel' g' context)).
    { intros g' i o Hr Ho. apply (IH fuel'); [lia|exact Hr|exact Ho]. }
    simpl in *.
    destruct g
      as [| |C|lo hi|Clause|Clause|Clause0 Clauses|Clause0 Clauses|name];
      try exact Hrun.
    + destruct (topdown_match base fuel Clause context (size_add index 0))
        as [cur| |] eqn:Ec; simpl in Hrun; try congruence;
        rewrite (Hsub _ _ _ Ec) by discriminate; simpl; try exact Hrun.
      apply (plus_loop_mono _ _ (Hsub Clause) fuel fuel');
        [lia|exact Hrun|exact Hout].
    + destruct (topdown_match base fuel Clause context (size_add index 0))
        as [cur| |] eqn:Ec; simpl in Hrun; try congruence;
        rewrite (Hsub _ _ _ Ec) by discriminate; simpl; try exact Hrun.
      apply (asterisk_loop_mono _ _ (Hsub Clause) fuel fuel');
        [lia|exact Hrun|exact Hout].
    + now apply (seq_match_mono _ _ Hsub Clauses Clause0).
    + now apply (ord_match_mono _ _ Hsub Clauses Clause0).
    + apply (IH fuel'); [lia|exact Hrun|exact Hout].
Qed.

(** A call has at most one result. *)
Lemma returns_unique g context index out out' :
  returns base g context index out ->
  returns base g context index out' ->
  out = out'.
Proof.
  intros [Ho [f Hf]] [Ho' [f' Hf']].
  apply (topdown_match_mono f (Nat.max f f')) in Hf; [|lia|exact Ho].
  apply (topdown_match_mono f' (Nat.max f f')) in Hf'; [|lia|exact Ho'].
  congruence.
Qed.

End Monotone.

(** ** What a call returns, construct by construct *)

Section Returns.

Variable Name : Type.
Variable base : Name -> Grammar Name.
Variable context : string_view.

Lemma returns_intro fuel g index out :
  topdown_match base fuel g context index = out ->
  out <> OutOfFuel ->
  returns base g context index out.
Proof.
  intros H Ho. split; [exact Ho|]. now exists fuel.
Qed.

Lemma returns_at g index out :
  returns base g context index out ->
  exists n, forall fuel', (n <= fuel')%nat ->
    topdown_match base fuel' g context index = out.
Proof.
  intros [Ho [f Hf]]. exists f. intros fuel' Hle.
  now apply (topdown_match_mono Name base f fuel').
Qed.

Lemma returns_seq2 a b index out :
  returns base (Seq a [b]) context index out <->
  exists ra, returns base a context index ra /\
             seq_after (returns base b context) index ra out.
Proof.
  split.
  - intros [Ho [[|f] Hf]]; simpl in Hf; [congruence|].
    destruct (topdown_match base f a context index) as [[ka|]| |] eqn:Ea;
      simpl in Hf; try congruence.
    + exists (Done (Some ka)). split; [now apply (returns_intro f)|].
      simpl.
      destruct (topdown_match base f b context (size_add index ka))
        as [snd| |] eqn:Eb; simpl in Hf; try congruence.
      * exists (Done snd). split; [now apply (returns_intro f)|].
        simpl. destruct snd; simpl; congruence.
      * exists Undefined. split; [now apply (returns_intro f)|].
        simpl. congruence.
    + exists (Done None). split; [now apply (returns_intro f)|].
      simpl. congruence.
    + exists Undefined. split; [now apply (returns_intro f)|].
      simpl. congruence.
  - intros [ra [Ha Hafter]].
    destruct (returns_at _ _ _ Ha) as [na Hna].
    destruct ra as [[ka|]| |]; simpl in Hafter; try contradiction.
    + destruct Hafter as [r [Hb Hout]].
      destruct (returns_at _ _ _ Hb) as [nb Hnb].
      assert (Hr : r <> OutOfFuel) by apply Hb.
      split.
      * subst out. destruct r as [[s|]| |]; simpl; congruence.
      * exists (S (Nat.max na nb)). simpl.
        rewrite Hna by lia. simpl. rewrite Hnb by lia.
        subst out. destruct r as [[s|]| |]; reflexivity.
    + subst out. split; [discriminate|].
      exists (S na). simpl. now rewrite Hna by lia.
    + subst out. split; [discriminate|].
      exists (S na). simpl. now rewrite Hna by lia.
Qed.

Lemma returns_ord2 a b index out :
  returns base (Ord a [b]) context index out <->
  exists ra, returns base a context index ra /\
             ord_after (returns base b context) index ra out.
Proof.
  split.
  - intros [Ho [[|f] Hf]]; simpl in Hf; [congruence|].
    destruct (topdown_match base f a context index) as [[ka|]| |] eqn:Ea;
      simpl in Hf; try congruence.
    + exists (Done (Some ka)). split; [now apply (returns_intro f)|].
      simpl. congruence.
    + exists (Done None). split; [now apply (returns_intro f)|].
      simpl. now apply (returns_intro f).
    + exists Undefined. split; [now apply (returns_intro f)|].
      simpl. congruence.
  - intros [ra [Ha Hafter]].
    destruct (returns_at _ _ _ Ha) as [na Hna].
    destruct ra as [[ka|]| |]; simpl in Hafter; try contradiction.
    + subst out. split; [discriminate|].
      exists (S na). simpl. now rewrite Hna by lia.
    + destruct (returns_at _ _ _ Hafter) as [nb Hnb].
      split; [apply Hafter|].
      exists (S (Nat.max na nb)). simpl.
      rewrite Hna by lia. simpl. apply Hnb. lia.
    + subst out. split; [discriminate|].
      exists (S na). simpl. now rewrite Hna by lia.
Qed.

End Returns.

(** ** The repetition loops *)

Section Loops.

Variable Name : Type.
Variable base : Name -> Grammar Name.
Variable context : string_view.
Variable sub : Grammar Name.

Lemma loop_ends_not_out_of_fuel index count out :
  loop_ends base context sub index count out -> out <> OutOfFuel.
Proof.
  induction 1; congruence.
Qed.

Lemma lift_not_out_of_fuel out : out <> OutOfFuel -> lift out <> OutOfFuel.
Proof.
  destruct out; simpl; congruence.
Qed.

Lemma run_loop_sound f1 f2 :
  forall index count o,
    run_loop base context sub f1 f2 index count = o ->
    o <> OutOfFuel ->
    exists out, loop_ends base context sub index count out /\ o = lift out.
Proof.
  unfold run_loop.
  induction f2 as [|f2 IH]; intros index count o Hrun Ho;
    destruct (topdown_match base f1 sub context (size_add index count))
      as [[k|]| |] eqn:Ec; simpl in Hrun; try congruence.
  - exists (Done count). split; [|now symmetry].
    apply loop_stop. now apply (returns_intro _ _ _ f1).
  - exists Undefined. split; [|now symmetry].
    apply loop_undefined. now apply (returns_intro _ _ _ f1).
  - destruct (IH index (size_add count k) o Hrun Ho) as [out [Hends Hout]].
    exists out. split; [|exact Hout].
    apply (loop_again base context sub index count k); [|exact Hends].
    now apply (returns_intro _ _ _ f1).
  - exists (Done count). split; [|now symmetry].
    apply loop_stop. now apply (returns_intro _ _ _ f1).
  - exists Undefined. split; [|now symmetry].
    apply loop_undefined. now apply (returns_intro _ _ _ f1).
Qed.

Lemma run_loop_complete index count out :
  loop_ends base context sub index count out ->
  exists n, forall f1 f2, (n <= f1)%nat -> (n <= f2)%nat ->
    run_loop base context sub f1 f2 index count = lift out.
Proof.
  unfold run_loop.
  induction 1 as [count Hsub|count Hsub|count k out Hsub Hends [n IH]].
  - destruct (returns_at _ _ _ _ _ _ Hsub) as [n Hn].
    exists n. intros f1 f2 H1 H2. rewrite Hn by lia. simpl.
    destruct f2; reflexivity.
  - destruct (returns_at _ _ _ _ _ _ Hsub) as [n Hn].
    exists n. intros f1 f2 H1 H2. now rewrite Hn by lia.
  - destruct (returns_at _ _ _ _ _ _ Hsub) as [n0 Hn0].
    exists (S (Nat.max n0 n)). intros f1 f2 H1 H2.
    rewrite Hn0 by lia. simpl.
    destruct f2 as [|f2]; [lia|]. simpl.
    apply IH; lia.
Qed.

Lemma topdown_match_plus fuel index :
  topdown_match base (S fuel) (Plus sub) context index =
  (current <- topdown_match base fuel sub context (size_add index 0) ;;
   plus_loop (topdown_match base fuel sub context) fuel index 0 false
             current).
Proof. reflexivity. Qed.

Lemma topdown_match_asterisk fuel index :
  topdown_match base (S fuel) (Asterisk sub) context index =
  run_loop base context sub fuel fuel index 0.
Proof. reflexivity. Qed.

Lemma asterisk_loop_entered f1 f2 index count c :
  asterisk_loop (topdown_match base f1 sub context) (S f2) index count
                (Some c) =
  run_loop base context sub f1 f2 index (size_add count c).
Proof. reflexivity. Qed.

(** [Asterisk]: the loop from count 0. *)
Lemma returns_asterisk index o :
  returns base (Asterisk sub) context index o <->
  exists out, loop_ends base context sub index 0 out /\ o = lift out.
Proof.
  split.
  - intros [Ho [[|f] Hf]]; simpl in Hf; [congruence|].
    now apply (run_loop_sound f f).
  - intros [out [Hends Hout]]. subst o.
    split; [apply lift_not_out_of_fuel;
            now apply (loop_ends_not_out_of_fuel index 0)|].
    destruct (run_loop_complete _ _ _ Hends) as [n Hn].
    exists (S n). rewrite topdown_match_asterisk. apply (Hn n n); lia.
Qed.

Lemma returns_plus index o :
  returns base (Plus sub) context index o <->
  exists r1, returns base sub context (size_add index 0) r1 /\
             plus_after base context sub index r1 o.
Proof.
  split.
  - intros [Ho [[|f] Hf]]; simpl in Hf; [congruence|].
    destruct (topdown_match base f sub context (size_add index 0))
      as [[k|]| |] eqn:E1; simpl in Hf; try congruence.
    + exists (Done (Some k)). split; [now apply (returns_intro _ _ _ f)|].
      simpl. rewrite plus_loop_entered in Hf.
      destruct f as [|f]; simpl in Hf; [congruence|].
      now apply (run_loop_sound (S f) f).
    + exists (Done None). split; [now apply (returns_intro _ _ _ f)|].
      simpl. destruct f; simpl in Hf; congruence.
    + exists Undefined. split; [now apply (returns_intro _ _ _ f)|].
      simpl. congruence.
  - intros [r1 [H1 Hafter]].
    destruct (returns_at _ _ _ _ _ _ H1) as [n1 Hn1].
    destruct r1 as [[k|]| |]; simpl in Hafter; try contradiction.
    + destruct Hafter as [out [Hends Hout]]. subst o.
      split; [apply lift_not_out_of_fuel;
              now apply (loop_ends_not_out_of_fuel index (size_add 0 k))|].
      destruct (run_loop_complete _ _ _ Hends) as [n Hn].
      exists (S (S (Nat.max n1 n))). rewrite topdown_match_plus.
      rewrite Hn1 by lia. unfold bind.
      rewrite plus_loop_entered, asterisk_loop_entered.
      apply Hn; lia.
    + subst o. split; [discriminate|].
      exists (S n1). rewrite topdown_match_plus.
      rewrite Hn1 by lia. destruct n1; reflexivity.
    + subst o. split; [discriminate|].
      exists (S n1). rewrite topdown_match_plus.
      now rewrite Hn1 by lia.
Qed.

(** The loop stops only at a failure of [sub]. *)
Lemma loop_ends_at_failure index count total :
  loop_ends base context sub index count (Done total) ->
  returns base sub context (size_add index total) (Done None).
Proof.
  intros H. remember (Done total) as out eqn:E.
  induction H as [count Hsub|count Hsub|count k out Hsub Hends IH].
  - injection E as ->. exact Hsub.
  - discriminate.
  - now apply IH.
Qed.

(** The loop of [Asterisk] at [index + k] from count [c] is the loop at
    [index] from count [k + c]. *)
Lemma loop_ends_shift index k count out :
  loop_ends base context sub (size_add index k) count out ->
  loop_ends base context sub index (size_add k count)
            (shift_total k out).
Proof.
  induction 1 as [count Hsub|count Hsub|count k' out Hsub Hends IH].
  - apply loop_stop. now rewrite <- size_add_assoc.
  - apply loop_undefined. now rewrite <- size_add_assoc.
  - apply (loop_again base context sub index (size_add k count) k').
    + now rewrite <- size_add_assoc.
    + now rewrite size_add_assoc.
Qed.

Lemma loop_ends_unshift index k c out :
  loop_ends base context sub index c out ->
  forall count, c = size_add k count ->
    exists out', loop_ends base context sub (size_add index k) count out' /\
      out = shift_total k out'.
Proof.
  induction 1 as [c Hsub|c Hsub|c k' out Hsub Hends IH]; intros count ->.
  - exists (Done count). split; [|reflexivity].
    apply loop_stop. now rewrite size_add_assoc.
  - exists Undefined. split; [|reflexivity].
    apply loop_undefined. now rewrite size_add_assoc.
  - destruct (IH (size_add count k')) as [out' [Hends' Hout]].
    { now rewrite size_add_assoc. }
    exists out'. split; [|exact Hout].
    apply (loop_again base context sub _ count k'); [|exact Hends'].
    now rewrite size_add_assoc.
Qed.

End Loops.

(** ** A match that consumes something stays inside the array *)

Lemma size_add_bounded (len a b : N) :
  is_size_t len -> a + b <= len -> size_add a b = a + b.
Proof.
  intros Hlen Hab. apply size_add_small. unfold is_size_t in *. lia.
Qed.

Section Bound.

Variable len : N.
Hypothesis len_size_t : is_size_t len.

Lemma asterisk_loop_in_array (m : size_t -> matched) :
  keeps_in_array len m ->
  forall fuel index count current,
    is_size_t index ->
    count = 0 \/ index + count <= len ->
    in_array len (size_add index count) (Done current) ->
    in_array len index (asterisk_loop m fuel index count current).
Proof.
  intros Hm. induction fuel as [|fuel IH];
    intros index count [c|] Hi Hcount Hcur; simpl; auto.
  assert (Hic : size_add index count = index + count).
  { destruct Hcount as [->|Hc].
    - rewrite N.add_0_r. now apply size_add_0_r.
    - now apply (size_add_bounded len). }
  assert (Hcount' : size_add count c = count + c /\
                    (size_add count c = 0 \/
                     index + size_add count c <= len)).
  { simpl in Hcur. rewrite Hic in Hcur.
    destruct Hcur as [->|Hc].
    - rewrite N.add_0_r.
      assert (E : size_add count 0 = count).
      { apply size_add_0_r. unfold is_size_t in *.
        destruct Hcount; lia. }
      rewrite E. split; [reflexivity|exact Hcount].
    - assert (E : size_add count c = count + c).
      { apply (size_add_bounded len); [exact len_size_t|lia]. }
      rewrite E. split; [reflexivity|right; lia]. }
  destruct Hcount' as [_ Hcount'].
  pose proof (Hm (size_add index (size_add count c))
                 (size_add_is_size_t _ _)) as Hnext.
  destruct (m (size_add index (size_add count c))) as [cur| |]; simpl; auto.
Qed.

Section Clauses.

Variable Name : Type.
Variable m : Grammar Name -> size_t -> matched.
Hypothesis m_keeps : forall g, keeps_in_array len (m g).

Lemma seq_match_in_array :
  forall Clauses Clause0, keeps_in_array len (seq_match m Clause0 Clauses).
Proof.
  induction Clauses as [|Clause1 Clauses IH]; intros Clause0 index Hi;
    simpl.
  - now apply m_keeps.
  - pose proof (m_keeps Clause0 index Hi) as H0.
    destruct (m Clause0 index) as [[f|]| |]; simpl; auto.
    simpl in H0.
    assert (Hif : size_add index f = index + f).
    { destruct H0 as [->|H0].
      - rewrite N.add_0_r. now apply size_add_0_r.
      - now apply (size_add_bounded len). }
    pose proof (IH Clause1 (size_add index f) (size_add_is_size_t _ _))
      as H1.
    destruct (seq_match m Clause1 Clauses (size_add index f))
      as [[s|]| |]; simpl; auto.
    simpl in H1. rewrite Hif in H1.
    assert (E : size_add f s = f + s).
    { apply (size_add_bounded len); [exact len_size_t|lia]. }
    rewrite E. lia.
Qed.

Lemma ord_match_in_array :
  forall Clauses Clause0, keeps_in_array len (ord_match m Clause0 Clauses).
Proof.
  induction Clauses as [|Clause1 Clauses IH]; intros Clause0 index Hi;
    simpl.
  - now apply m_keeps.
  - pose proof (m_keeps Clause0 index Hi) as H0.
    destruct (m Clause0 index) as [[f|]| |]; simpl; auto.
    now apply IH.
Qed.

End Clauses.

End Bound.

Section BoundEngine.

Variable Name : Type.
Variable base : Name -> Grammar Name.
Variable context : string_view.

Hypothesis len_size_t : is_size_t (array_len context).

Lemma sv_at_in_array index c :
  sv_at context index = Some c -> index + 1 <= array_len context.
Proof.
  unfold sv_at, array_len. intros H.
  assert (Hlt : (N.to_nat index < List.length (sv_data context))%nat).
  { apply nth_error_Some. congruence. }
  lia.
Qed.

Lemma topdown_match_in_array (fuel : nat) :
  forall g,
    keeps_in_array (array_len context) (topdown_match base fuel g context).
Proof.
  induction fuel as [|fuel IH]; intros g index Hi; simpl; auto.
  destruct g
    as [| |C|lo hi|Clause|Clause|Clause0 Clauses|Clause0 Clauses|name].
  - simpl. destruct (index =? 0); simpl; auto.
  - simpl. destruct (sv_size context <=? index); simpl; auto.
  - destruct (sv_at context index) as [c|] eqn:E; simpl; auto.
    destruct (c =? C)%Z; simpl; auto.
    right. now apply (sv_at_in_array index c).
  - destruct (sv_at context index) as [c|] eqn:E; simpl; auto.
    destruct ((lo <=? c)%Z && (c <=? hi)%Z)%bool; simpl; auto.
    right. now apply (sv_at_in_array index c).
  - pose proof (IH Clause (size_add index 0) (size_add_is_size_t _ _)) as H0.
    destruct (topdown_match base fuel Clause context (size_add index 0))
      as [[k|]| |]; simpl; auto.
    + rewrite plus_loop_entered.
      apply (asterisk_loop_in_array (array_len context) len_size_t); auto.
    + destruct fuel; simpl; auto.
  - pose proof (IH Clause (size_add index 0) (size_add_is_size_t _ _)) as H0.
    destruct (topdown_match base fuel Clause context (size_add index 0))
      as [cur| |]; simpl; auto.
    apply (asterisk_loop_in_array (array_len context) len_size_t); auto.
  - now apply (seq_match_in_array (array_len context) len_size_t).
  - now apply (ord_match_in_array (array_len context)).
  - now apply IH.
Qed.

End BoundEngine.

(** ** The successful iterations of a repetition *)

Section Iterations.

Variable Name : Type.
Variable base : Name -> Grammar Name.
Variable context : string_view.
Variable sub : Grammar Name.

Lemma loop_ends_iterations index count total :
  loop_ends base context sub index count (Done total) <->
  exists ks, iterations base context sub index count ks /\
             total = accumulate count ks /\
             returns base sub context (size_add index total) (Done None).
Proof.
  split.
  - intros H. remember (Done total) as out eqn:E.
    induction H as [count Hsub|count Hsub|count k out Hsub Hends IH].
    + injection E as ->. exists [].
      split; [constructor|]. split; [reflexivity|exact Hsub].
    + discriminate.
    + destruct (IH E) as [ks [Hks [Htotal Hfail]]].
      exists (k :: ks).
      split; [now apply iterations_cons|]. split; [exact Htotal|exact Hfail].
  - intros [ks [Hks [Htotal Hfail]]]. revert total Htotal Hfail.
    induction Hks as [count|count k ks Hsub Hks IH]; intros total -> Hfail.
    + now apply loop_stop.
    + apply (loop_again _ _ _ _ count k); [exact Hsub|].
      now apply IH.
Qed.

End Iterations.

(** ** Repetitions: failure, the sequence with [Asterisk], termination *)

Section Repetition.

Variable Name : Type.
Variable base : Name -> Grammar Name.
Variable context : string_view.
Variable sub : Grammar Name.

Lemma returns_in_array g index out :
  is_size_t (array_len context) -> is_size_t index ->
  returns base g context index out ->
  in_array (array_len context) index out.
Proof.
  intros Hlen Hi [_ [fuel <-]].
  now apply (topdown_match_in_array Name base context Hlen fuel g index).
Qed.

Lemma returns_plus_none index :
  returns base (Plus sub) context index (Done None) <->
  returns base sub context (size_add index 0) (Done None).
Proof.
  rewrite returns_plus. split.
  - intros [[[k|]| |] [H1 Hafter]]; simpl in Hafter;
      try discriminate; try contradiction; try exact H1.
    destruct Hafter as [[t| |] [_ E]]; discriminate.
  - intros H. exists (Done None). now split.
Qed.

(** After the first success of [sub], [Plus<sub>] goes on as
    [Seq<sub, Asterisk<sub>>] does. *)
Lemma plus_after_seq_after index r1 o :
  plus_after base context sub index r1 o <->
  seq_after (returns base (Asterisk sub) context) index r1 o.
Proof.
  destruct r1 as [[k|]| |]; simpl; try reflexivity. split.
  - intros [out [Hends ->]].
    rewrite size_add_comm in Hends.
    destruct (loop_ends_unshift _ _ _ _ _ k _ _ Hends 0 eq_refl)
      as [out' [Hends' ->]].
    exists (lift out'). split.
    + apply returns_asterisk. now exists out'.
    + destruct out'; reflexivity.
  - intros [r [Hr ->]]. apply returns_asterisk in Hr.
    destruct Hr as [out' [Hends' ->]].
    apply loop_ends_shift in Hends'. rewrite size_add_comm in Hends'.
    eexists. split; [exact Hends'|].
    destruct out'; reflexivity.
Qed.

Hypothesis len_size_t : is_size_t (array_len context).
Hypothesis consumes : forall i k,
    returns base sub context i (Done (Some k)) -> 1 <= k.

(** Each successful iteration advances the running total by at least 1,
    and the offset stays inside the array: a chain of successful
    iterations consumes at least its length and at most what is left of
    the array. *)
Lemma iterations_bounded index count ks :
  iterations base context sub index count ks ->
  is_size_t index ->
  count = 0 \/ index + count <= array_len context ->
  ks = [] \/
  (count + N.of_nat (List.length ks) <= accumulate count ks /\
   index + accumulate count ks <= array_len context).
Proof.
  induction 1 as [count|count k ks Hsub Hks IH]; intros Hi Hcount;
    [now left|right].
  assert (Hic : size_add index count = index + count).
  { destruct Hcount as [->|Hc].
    - rewrite N.add_0_r. now apply size_add_0_r.
    - now apply (size_add_bounded (array_len context)). }
  pose proof (consumes _ _ Hsub) as Hk.
  apply (returns_in_array _ _ _ len_size_t (size_add_is_size_t _ _))
    in Hsub.
  simpl in Hsub. rewrite Hic in Hsub.
  assert (Hck : size_add count k = count + k).
  { apply (size_add_bounded (array_len context)); [exact len_size_t|lia]. }
  unfold accumulate in *. simpl fold_left. rewrite Hck in *.
  destruct (IH Hi) as [->|Hle]; simpl; lia.
Qed.

Hypothesis sub_returns : forall i,
    is_size_t i -> exists out, returns base sub context i out.

Lemma loop_terminates index (n : nat) :
  is_size_t index ->
  forall count,
    count = 0 \/ index + count <= array_len context ->
    (N.to_nat (array_len context - (index + count)) <= n)%nat ->
    exists out, loop_ends base context sub index count out.
Proof.
  intros Hi. induction n as [|n IH]; intros count Hcount Hn;
    (assert (Hic : size_add index count = index + count);
     [destruct Hcount as [->|Hc];
      [rewrite N.add_0_r; now apply size_add_0_r
      |now apply (size_add_bounded (array_len context))]|]);
    destruct (sub_returns (size_add index count) (size_add_is_size_t _ _))
      as [[[k|]| |] Hout];
    try (exists (Done count); now apply loop_stop);
    try (exists Undefined; now apply loop_undefined);
    try (destruct Hout as [Hout _]; congruence);
    pose proof (consumes _ _ Hout) as Hk;
    pose proof (returns_in_array _ _ _ len_size_t
                  (size_add_is_size_t _ _) Hout) as Hin;
    simpl in Hin; rewrite Hic in Hin.
  - lia.
  - assert (Hck : size_add count k = count + k).
    { apply (size_add_bounded (array_len context)); [exact len_size_t|lia]. }
    destruct (IH (size_add count k)) as [out Hends].
    + rewrite Hck. right. lia.
    + rewrite Hck. lia.
    + exists out. now apply (loop_again _ _ _ _ count k).
Qed.

End Repetition.

(** ** The scenarios of the specification *)

Example literal_a :
  topdown_match arith_base 1 (Char (lit "a")) (sv_of_literal "a") 0
  = Done (Some 1).
Proof. reflexivity. Qed.

Example digit_x :
  topdown_match arith_base 2 (Rule Digit) (sv_of_literal "x") 0 = Done None.
Proof. reflexivity. Qed.

Example number_123abc :
  topdown_match arith_base 5 (Rule Number) (sv_of_literal "123abc") 0
  = Done (Some 3).
Proof. reflexivity. Qed.

Example digits_abc :
  topdown_match arith_base 3 (Asterisk (Rule Digit)) (sv_of_literal "abc") 0
  = Done (Some 0).
Proof. reflexivity. Qed.

Example end_of_empty :
  topdown_match arith_base 1 End (sv_of_literal "") 0 = Done (Some 0).
Proof. reflexivity. Qed.

Example end_of_a :
  topdown_match arith_base 1 End (sv_of_literal "a") 0 = Done None.
Proof. reflexivity. Qed.

(** [Asterisk<Start>] at offset 0 never returns: [Start] succeeds without
    consuming, and the loop calls it again at the same offset. *)
Example asterisk_start_loops :
  forall context fuel,
    topdown_match arith_base fuel (Asterisk Start) context 0 = OutOfFuel.
Proof.
  intros context [|f1]; [reflexivity|].
  rewrite topdown_match_asterisk. generalize f1 at 2. intros f2.
  induction f2 as [|f2 IH]; destruct f1 as [|f1]; try reflexivity.
  exact IH.
Qed.

(** * The claims *)

(** C1.  The call of [main], [Toplevel().topdown_match("(1+1)+1*(5+5)", 0)]
    with [Toplevel = Seq<Start, Additive, End>], returns [13], which is the
    length of the input: the anchored rule matches the whole input. *)
Theorem toplevel_matches_whole_input :
  returns arith_base (Rule Toplevel) main_context 0 (Done (Some 13)) /\
  sv_size main_context = 13.
Proof.
  split; [|reflexivity].
  split; [discriminate|].
  exists 40%nat. vm_compute. reflexivity.
Qed.

(** C2, at the failing inputs.  [Char] and [CharRange] read
    [context[index]] without comparing [index] with [context.size()].
    On the view of the first character of ["1+2"], of length 1, [Char<'+'>]
    at offset 1 reads the ['+'] behind the view and returns [1]; on the
    empty literal, at offset 0, [Char<0>] and [CharRange<0, '9'>] read the
    zero that ends the array of the literal and return [1].  On a view with
    nothing behind it the read leaves the array. *)
Theorem char_reads_past_the_end :
  forall (Name : Type) (base : Name -> Grammar Name) (fuel : nat),
    (sv_size (sv_of_prefix "1+2" 1) <= 1 /\
     topdown_match base (S fuel) (Char (lit "+")) (sv_of_prefix "1+2" 1) 1
       = Done (Some 1)) /\
    (sv_size (sv_of_literal "") <= 0 /\
     topdown_match base (S fuel) (Char 0%Z) (sv_of_literal "") 0
       = Done (Some 1) /\
     topdown_match base (S fuel) (CharRange 0%Z (lit "9"))
                   (sv_of_literal "") 0
       = Done (Some 1)) /\
    (sv_size (sv_exact []) <= 0 /\
     topdown_match base (S fuel) (Char (lit "a")) (sv_exact []) 0
       = Undefined /\
     topdown_match base (S fuel) (CharRange (lit "0") (lit "9"))
                   (sv_exact []) 0
       = Undefined).
Proof.
  intros Name base fuel.
  split; [split; [discriminate|reflexivity]|].
  split; (split; [discriminate|split; reflexivity]).
Qed.

(** C3, at the failing inputs.  On the view of the first character of
    ["1+2"], of length 1, the anchored rule [Toplevel] of [main.cpp]
    succeeds at offset 0 and consumes 3: [0 + 3 > 1].  On the literal
    ["ab"], of length 2, [Char<0>] at offset 2 returns [1]:
    [2 + 1 > 2]. *)
Theorem match_exceeds_the_input :
  (sv_wf (sv_of_prefix "1+2" 1) /\
   returns arith_base (Rule Toplevel) (sv_of_prefix "1+2" 1) 0
           (Done (Some 3)) /\
   sv_size (sv_of_prefix "1+2" 1) < 0 + 3) /\
  (sv_wf (sv_of_literal "ab") /\
   returns arith_base (Char 0%Z) (sv_of_literal "ab") 2 (Done (Some 1)) /\
   sv_size (sv_of_literal "ab") < 2 + 1).
Proof.
  split.
  - split; [split; [vm_compute; discriminate|reflexivity]|].
    split; [|reflexivity].
    split; [discriminate|]. exists 20%nat. vm_compute. reflexivity.
  - split; [split; [vm_compute; discriminate|reflexivity]|].
    split; [|reflexivity].
    split; [discriminate|]. now exists 1%nat.
Qed.

(** X1.  Every successful match consumes nothing, or what it consumes
    lies inside the array of the view: for a well-formed view and a
    [size_t] offset, a result [k] at [index] has [k = 0] or [index + k] at
    most the length of the array. *)
Lemma match_stays_in_array :
  forall (Name : Type) (base : Name -> Grammar Name) (g : Grammar Name)
         (context : string_view) (index k : size_t),
    sv_wf context ->
    is_size_t index ->
    returns base g context index (Done (Some k)) ->
    k = 0 \/ index + k <= array_len context.
Proof.
  intros Name base g context index k [_ Hlen] Hi Hret.
  exact (returns_in_array Name base context g index _ Hlen Hi Hret).
Qed.

Lemma match_stays_in_array_witness :
  2 = 0 \/ 0 + 2 <= array_len (sv_of_literal "12+").
Proof.
  apply (match_stays_in_array ArithRule arith_base (Rule Number)
           (sv_of_literal "12+") 0 2).
  - split; [vm_compute; discriminate|reflexivity].
  - reflexivity.
  - split; [discriminate|now exists 5%nat].
Defined.

(** X2.  On a view with nothing readable behind it, every successful match
    consumes nothing or ends within the input: a result [k] at [index] has
    [k = 0] or [index + k] at most the length of the input. *)
Lemma match_within_exact_view :
  forall (Name : Type) (base : Name -> Grammar Name) (g : Grammar Name)
         (cs : list char) (index k : size_t),
    is_size_t (N.of_nat (List.length cs)) ->
    is_size_t index ->
    returns base g (sv_exact cs) index (Done (Some k)) ->
    k = 0 \/ index + k <= sv_size (sv_exact cs).
Proof.
  intros Name base g cs index k Hlen Hi Hret.
  exact (returns_in_array Name base (sv_exact cs) g index _ Hlen Hi Hret).
Qed.

Lemma match_within_exact_view_witness :
  2 = 0 \/ 0 + 2 <= sv_size (sv_exact (chars_of_string "12+")).
Proof.
  apply (match_within_exact_view ArithRule arith_base (Rule Number)
           (chars_of_string "12+") 0 2).
  - reflexivity.
  - reflexivity.
  - split; [discriminate|now exists 5%nat].
Defined.

(** C4, the counterexample.  [Asterisk<sub>] does not succeed for every
    [sub]: [Start] succeeds at offset 0 without consuming, so the loop of
    [Asterisk<Start>] calls it at offset 0 for ever and the call returns
    nothing, no success either. *)
Lemma asterisk_start_does_not_succeed :
  ~ exists k,
      returns arith_base (Asterisk Start) (sv_of_literal "") 0
              (Done (Some k)).
Proof.
  intros [k [_ [fuel H]]].
  rewrite asterisk_start_loops in H. discriminate H.
Qed.

(** C4, as amended.  [Asterisk<sub>] never returns [nullopt], whatever
    [sub], the input and the offset are.  It succeeds with [total] exactly
    when [sub] makes successful iterations (possibly none), one after the
    other from the starting offset, [total] is the sum of what they
    consumed, and [sub] fails after them; when the first call of [sub]
    fails it succeeds with 0. *)
Theorem asterisk_never_fails :
  forall (Name : Type) (base : Name -> Grammar Name) (sub : Grammar Name)
         (context : string_view) (index : size_t),
    (forall fuel,
        topdown_match base fuel (Asterisk sub) context index <> Done None) /\
    (forall total,
        returns base (Asterisk sub) context index (Done (Some total)) <->
        exists ks,
          iterations base context sub index 0 ks /\
          total = accumulate 0 ks /\
          returns base sub context (size_add index total) (Done None)) /\
    (returns base sub context (size_add index 0) (Done None) ->
     returns base (Asterisk sub) context index (Done (Some 0))).
Proof.
  intros Name base sub context index. split; [|split].
  - intros fuel H.
    assert (Hret : returns base (Asterisk sub) context index (Done None)).
    { now apply (returns_intro _ _ _ fuel). }
    apply returns_asterisk in Hret. destruct Hret as [[t| |] [_ E]];
      simpl in E; discriminate.
  - intros total. rewrite returns_asterisk.
    rewrite <- loop_ends_iterations. split.
    + intros [[t| |] [H E]]; simpl in E; try discriminate.
      now injection E as ->.
    + intros H. now exists (Done total).
  - intros Hfail. apply returns_asterisk. exists (Done 0).
    split; [|reflexivity]. now apply loop_stop.
Qed.

(** C5, the counterexample.  A success of [sub] at the starting offset
    does not make [Plus<sub>] succeed: [Start] succeeds at offset 0, and
    the loop of [Plus<Start>] calls it at offset 0 for ever, so the call
    returns nothing. *)
Lemma plus_start_does_not_succeed :
  returns arith_base Start (sv_of_literal "") 0 (Done (Some 0)) /\
  ~ exists total,
      returns arith_base (Plus Start) (sv_of_literal "") 0
              (Done (Some total)).
Proof.
  split.
  - split; [discriminate|now exists 1%nat].
  - intros [total [_ [fuel H]]].
    assert (Hloop : topdown_match arith_base fuel (Plus Start)
                                  (sv_of_literal "") 0 = OutOfFuel).
    { destruct fuel as [|[|f]]; try reflexivity.
      rewrite topdown_match_plus.
      change (topdown_match arith_base (S f) Start (sv_of_literal "")
                            (size_add 0 0)) with (Done (Some 0) : matched).
      unfold bind. rewrite plus_loop_entered.
      exact (asterisk_start_loops (sv_of_literal "") (S (S f))). }
    rewrite Hloop in H. discriminate H.
Qed.

(** C5, as amended.  [Plus<sub>] fails exactly when [sub] fails at the
    starting offset.  It succeeds with [total] exactly when [sub] makes one
    or more successful iterations, one after the other from the starting
    offset, [total] is the sum of what they consumed, and [sub] fails after
    them: so when [sub] succeeds at the starting offset and the iterations
    come to a failure, [Plus<sub>] returns the accumulated total. *)
Theorem plus_fails_iff_first_fails :
  forall (Name : Type) (base : Name -> Grammar Name) (sub : Grammar Name)
         (context : string_view) (index : size_t),
    is_size_t index ->
    (returns base (Plus sub) context index (Done None) <->
     returns base sub context index (Done None)) /\
    (forall total,
        returns base (Plus sub) context index (Done (Some total)) <->
        exists k ks,
          returns base sub context index (Done (Some k)) /\
          iterations base context sub index 0 (k :: ks) /\
          total = accumulate 0 (k :: ks) /\
          returns base sub context (size_add index total) (Done None)).
Proof.
  intros Name base sub context index Hi.
  pose proof (size_add_0_r index Hi) as E0. split.
  - rewrite returns_plus_none. now rewrite E0.
  - intros total. rewrite returns_plus. rewrite E0. split.
    + intros [[[k|]| |] [H1 Hafter]]; simpl in Hafter;
        try discriminate; try contradiction.
      destruct Hafter as [[t| |] [Hends E]]; simpl in E; try discriminate.
      injection E as ->.
      apply loop_ends_iterations in Hends.
      destruct Hends as [ks [Hks [Htotal Hfail]]].
      exists k, ks. split; [exact H1|]. split; [|now split].
      apply iterations_cons; [now rewrite E0|exact Hks].
    + intros [k [ks [H1 [Hks [Htotal Hfail]]]]].
      exists (Done (Some k)). split; [exact H1|]. simpl.
      exists (Done total). split; [|reflexivity].
      apply loop_ends_iterations. exists ks.
      inversion Hks as [|count k' ks' Hsub Hks']; subst.
      split; [exact Hks'|]. split; [reflexivity|exact Hfail].
Qed.

Lemma plus_fails_iff_first_fails_witness :
  let context := sv_of_literal "12+" in
  returns arith_base (Plus (Rule Digit)) context 0 (Done (Some 2)) /\
  ~ returns arith_base (Plus (Rule Digit)) context 2 (Done (Some 0)).
Proof.
  intros context.
  assert (Hi0 : is_size_t 0) by reflexivity.
  assert (Hi2 : is_size_t 2) by reflexivity.
  pose proof (plus_fails_iff_first_fails ArithRule arith_base (Rule Digit)
                context 0 Hi0) as [_ H0].
  pose proof (plus_fails_iff_first_fails ArithRule arith_base (Rule Digit)
                context 2 Hi2) as [H2 _].
  split.
  - apply H0. exists 1, [1].
    assert (Hd : forall i r,
               topdown_match arith_base 2 (Rule Digit) context i = r ->
               r <> OutOfFuel ->
               returns arith_base (Rule Digit) context i r).
    { intros i r E Hr. split; [exact Hr|]. now exists 2%nat. }
    split; [apply Hd; [reflexivity|discriminate]|].
    split; [|split; [reflexivity|apply Hd; [reflexivity|discriminate]]].
    apply iterations_cons; [apply Hd; [reflexivity|discriminate]|].
    apply iterations_cons; [apply Hd; [reflexivity|discriminate]|].
    apply iterations_nil.
  - intros Hplus.
    assert (Hnone : returns arith_base (Plus (Rule Digit)) context 2
                      (Done None)).
    { apply H2. split; [discriminate|]. now exists 2%nat. }
    pose proof (returns_unique _ _ _ _ _ _ _ Hplus Hnone) as E.
    discriminate E.
Defined.

(** C6.  When [a] succeeds, [Ord<a, b>] returns what [a] returned, and
    nothing else, whatever [b] would do; [Ord<a, b>] fails exactly when [a]
    and [b] both fail. *)
Theorem ord_first_match_wins :
  forall (Name : Type) (base : Name -> Grammar Name) (a b : Grammar Name)
         (context : string_view) (index : size_t),
    (forall k, returns base a context index (Done (Some k)) ->
       forall out, returns base (Ord a [b]) context index out <->
                   out = Done (Some k)) /\
    (returns base (Ord a [b]) context index (Done None) <->
     returns base a context index (Done None) /\
     returns base b context index (Done None)).
Proof.
  intros Name base a b context index. split.
  - intros k Ha out. rewrite returns_ord2. split.
    + intros [ra [Hra Hafter]].
      rewrite (returns_unique _ _ _ _ _ _ _ Hra Ha) in Hafter. exact Hafter.
    + intros ->. exists (Done (Some k)). split; [exact Ha|reflexivity].
  - rewrite returns_ord2. split.
    + intros [[[ka|]| |] [Hra Hafter]]; simpl in Hafter;
        try discriminate; try contradiction.
      now split.
    + intros [Ha Hb]. exists (Done None). now split.
Qed.

(** C7.  [Seq<Seq<a, b>, c>] and [Seq<a, Seq<b, c>>] return the same:
    every result of the one (failure, success with its consumed length, or
    a read outside the array) is a result of the other. *)
Theorem seq_assoc :
  forall (Name : Type) (base : Name -> Grammar Name) (a b c : Grammar Name)
         (context : string_view) (index : size_t) (out : matched),
    returns base (Seq (Seq a [b]) [c]) context index out <->
    returns base (Seq a [Seq b [c]]) context index out.
Proof.
  intros Name base a b c context index out.
  rewrite (returns_seq2 _ _ _ (Seq a [b]) c).
  rewrite (returns_seq2 _ _ _ a (Seq b [c])).
  split.
  - intros [rab [Hab Hc]]. apply returns_seq2 in Hab.
    destruct Hab as [ra [Ha Hb]]. exists ra. split; [exact Ha|].
    destruct ra as [[ka|]| |]; simpl in Hb |- *; try contradiction;
      try (subst rab; exact Hc).
    destruct Hb as [rb [Hrb ->]].
    destruct rb as [[kb|]| |]; simpl in Hc.
    + destruct Hc as [rc [Hrc ->]].
      exists (snd <- rc ;; Done (option_map (size_add kb) snd)). split.
      * apply returns_seq2. exists (Done (Some kb)). split; [exact Hrb|].
        simpl. exists rc. split; [|reflexivity].
        now rewrite size_add_assoc.
      * destruct rc as [[kc|]| |]; simpl; try reflexivity.
        now rewrite size_add_assoc.
    + subst out. exists (Done None). split; [|reflexivity].
      apply returns_seq2. exists (Done None). now split.
    + subst out. exists Undefined. split; [|reflexivity].
      apply returns_seq2. exists Undefined. now split.
    + destruct Hrb as [Hrb _]. congruence.
  - intros [ra [Ha Hbc]].
    destruct ra as [[ka|]| |]; simpl in Hbc; try contradiction.
    + destruct Hbc as [rbc [Hrbc ->]]. apply returns_seq2 in Hrbc.
      destruct Hrbc as [rb [Hrb Hc]].
      destruct rb as [[kb|]| |]; simpl in Hc; try contradiction.
      * destruct Hc as [rc [Hrc ->]].
        exists (Done (Some (size_add ka kb))). split.
        -- apply returns_seq2. exists (Done (Some ka)). split; [exact Ha|].
           simpl. exists (Done (Some kb)). now split.
        -- simpl. exists rc. split; [now rewrite <- size_add_assoc|].
           destruct rc as [[kc|]| |]; simpl; try reflexivity.
           now rewrite size_add_assoc.
      * subst rbc. exists (Done None). split; [|reflexivity].
        apply returns_seq2. exists (Done (Some ka)). split; [exact Ha|].
        simpl. exists (Done None). now split.
      * subst rbc. exists Undefined. split; [|reflexivity].
        apply returns_seq2. exists (Done (Some ka)). split; [exact Ha|].
        simpl. exists Undefined. now split.
    + subst out. exists (Done None). split; [|reflexivity].
      apply returns_seq2. exists (Done None). now split.
    + subst out. exists Undefined. split; [|reflexivity].
      apply returns_seq2. exists Undefined. now split.
Qed.

(** C8.  When every successful match of [sub] consumes at least 1, the
    loops of [Plus<sub>] and [Asterisk<sub>] terminate.  Each successful
    iteration advances the offset by at least 1 and the offset stays inside
    the array, so the successful iterations from [index] are no more than
    what they consume, which is no more than what is left of the array; and
    when every call of [sub] returns, so do the calls of [Plus<sub>] and
    [Asterisk<sub>] (with a result, or at a read outside the array). *)
Theorem repetition_terminates :
  forall (Name : Type) (base : Name -> Grammar Name) (sub : Grammar Name)
         (context : string_view) (index : size_t),
    sv_wf context ->
    is_size_t index ->
    (forall i k, returns base sub context i (Done (Some k)) -> 1 <= k) ->
    (forall ks, iterations base context sub index 0 ks ->
       ks = [] \/
       (N.of_nat (List.length ks) <= accumulate 0 ks /\
        index + accumulate 0 ks <= array_len context)) /\
    ((forall i, is_size_t i -> exists out, returns base sub context i out) ->
     (exists out, returns base (Plus sub) context index out) /\
     (exists out, returns base (Asterisk sub) context index out)).
Proof.
  intros Name base sub context index [_ Hlen] Hi Hconsumes. split.
  - intros ks Hks.
    apply (iterations_bounded Name base context sub Hlen Hconsumes
             index 0 ks Hks Hi).
    now left.
  - intros Hsub.
    assert (Hloop : forall count,
               count = 0 \/ index + count <= array_len context ->
               exists out, loop_ends base context sub index count out).
    { intros count Hcount.
      apply (loop_terminates Name base context sub Hlen Hconsumes Hsub index
               (N.to_nat (array_len context - (index + count)))
               Hi count Hcount).
      lia. }
    split.
    + destruct (Hsub (size_add index 0) (size_add_is_size_t _ _))
        as [[[k|]| |] H1].
      * pose proof (Hconsumes _ _ H1) as Hk.
        pose proof (returns_in_array Name base context sub _ _ Hlen
                      (size_add_is_size_t _ _) H1) as Hin.
        simpl in Hin. rewrite (size_add_0_r index Hi) in Hin.
        destruct (Hloop (size_add 0 k)) as [out Hends].
        { right. rewrite (size_add_bounded _ 0 k Hlen); lia. }
        exists (lift out). apply returns_plus.
        exists (Done (Some k)). split; [exact H1|]. simpl. now exists out.
      * exists (Done None). now apply returns_plus_none.
      * exists Undefined. apply returns_plus. exists Undefined. now split.
      * destruct H1 as [H1 _]. congruence.
    + destruct (Hloop 0) as [out Hends]; [now left|].
      exists (lift out). apply returns_asterisk. now exists out.
Qed.

Lemma repetition_terminates_witness :
  (exists out,
      returns arith_base (Plus (Rule Digit)) (sv_of_literal "12+") 0 out) /\
  (exists out,
      returns arith_base (Asterisk (Rule Digit)) (sv_of_literal "12+") 0 out).
Proof.
  assert (Hwf : sv_wf (sv_of_literal "12+")).
  { split; [vm_compute; discriminate|reflexivity]. }
  assert (Hi : is_size_t 0) by reflexivity.
  assert (Hconsumes : forall i k,
             returns arith_base (Rule Digit) (sv_of_literal "12+") i
                     (Done (Some k)) -> 1 <= k).
  { intros i k [_ [fuel H]].
    destruct fuel as [|[|fuel]]; simpl in H; try discriminate.
    destruct (sv_at (sv_of_literal "12+") i) as [c|]; [|discriminate].
    match type of H with
    | context [if ?b then _ else _] => destruct b; [|discriminate]
    end.
    injection H as <-. vm_compute. discriminate. }
  apply (repetition_terminates ArithRule arith_base (Rule Digit)
           (sv_of_literal "12+") 0 Hwf Hi Hconsumes).
  intros i _.
  exists (topdown_match arith_base 2 (Rule Digit) (sv_of_literal "12+") i).
  split; [|now exists 2%nat].
  simpl. destruct (sv_at (sv_of_literal "12+") i); discriminate.
Defined.

(** C9.  [Plus<sub>] and [Seq<sub, Asterisk<sub>>] return the same.  Both
    fail exactly when [sub] fails at the starting offset, and both succeed
    with [total] exactly when [sub] succeeds there with some [k],
    [Asterisk<sub>] at the advanced offset succeeds with some [t], and
    [total] is [k + t]. *)
Theorem plus_is_seq_asterisk :
  forall (Name : Type) (base : Name -> Grammar Name) (sub : Grammar Name)
         (context : string_view) (index : size_t),
    is_size_t index ->
    (forall out,
        returns base (Plus sub) context index out <->
        returns base (Seq sub [Asterisk sub]) context index out) /\
    (returns base (Plus sub) context index (Done None) <->
     returns base sub context index (Done None)) /\
    (forall total,
        returns base (Plus sub) context index (Done (Some total)) <->
        exists k t,
          returns base sub context index (Done (Some k)) /\
          returns base (Asterisk sub) context (size_add index k)
                  (Done (Some t)) /\
          total = size_add k t).
Proof.
  intros Name base sub context index Hi.
  pose proof (size_add_0_r index Hi) as E0.
  assert (Heq : forall out,
             returns base (Plus sub) context index out <->
             exists r1, returns base sub context index r1 /\
                        seq_after (returns base (Asterisk sub) context)
                                  index r1 out).
  { intros out. rewrite returns_plus. rewrite E0.
    split; intros [r1 [H1 H]]; exists r1; (split; [exact H1|]);
      now apply plus_after_seq_after. }
  split; [|split].
  - intros out. rewrite returns_seq2. apply Heq.
  - rewrite returns_plus_none. now rewrite E0.
  - intros total. rewrite Heq. split.
    + intros [[[k|]| |] [H1 Hafter]]; simpl in Hafter;
        try discriminate; try contradiction.
      destruct Hafter as [[[t|]| |] [Hr E]]; simpl in E; try discriminate.
      injection E as ->. now exists k, t.
    + intros [k [t [H1 [Hr ->]]]].
      exists (Done (Some k)). split; [exact H1|]. simpl.
      exists (Done (Some t)). now split.
Qed.

Lemma plus_is_seq_asterisk_witness :
  returns arith_base (Seq (Rule Digit) [Asterisk (Rule Digit)])
          (sv_of_literal "12+") 0 (Done (Some 2)).
Proof.
  assert (Hi : is_size_t 0) by reflexivity.
  apply (plus_is_seq_asterisk ArithRule arith_base (Rule Digit)
           (sv_of_literal "12+") 0 Hi).
  split; [discriminate|]. now exists 5%nat.
Defined.

(** C10.  The repetitions are greedy: when [Plus<sub>] or [Asterisk<sub>]
    succeeds at [index] with the total [k], [sub] fails at [index + k]. *)
Theorem repetition_is_greedy :
  forall (Name : Type) (base : Name -> Grammar Name) (sub : Grammar Name)
         (context : string_view) (index k : size_t),
    sv_wf context ->
    is_size_t index ->
    returns base (Plus sub) context index (Done (Some k)) \/
    returns base (Asterisk sub) context index (Done (Some k)) ->
    returns base sub context (index + k) (Done None).
Proof.
  intros Name base sub context index k [_ Hlen] Hi Hrep.
  assert (Hk : size_add index k = index + k).
  { assert (Hin : in_array (array_len context)
                           index (Done (Some k))).
    { destruct Hrep as [H|H];
        now apply (returns_in_array Name base context _ _ _ Hlen Hi H). }
    simpl in Hin. destruct Hin as [->|Hin].
    - rewrite N.add_0_r. now apply size_add_0_r.
    - now apply (size_add_bounded _ _ _ Hlen). }
  rewrite <- Hk.
  destruct Hrep as [H|H].
  - apply returns_plus in H.
    destruct H as [[[k1|]| |] [H1 Hafter]]; simpl in Hafter;
      try discriminate; try contradiction.
    destruct Hafter as [[t| |] [Hends E]]; simpl in E; try discriminate.
    injection E as ->.
    now apply (loop_ends_at_failure _ _ _ _ _ _ _ Hends).
  - apply returns_asterisk in H.
    destruct H as [[t| |] [Hends E]]; simpl in E; try discriminate.
    injection E as ->.
    now apply (loop_ends_at_failure _ _ _ _ _ _ _ Hends).
Qed.

Lemma repetition_is_greedy_witness :
  returns arith_base (Rule Digit) (sv_of_literal "12+") (0 + 2) (Done None).
Proof.
  apply (repetition_is_greedy ArithRule arith_base (Rule Digit)
           (sv_of_literal "12+") 0 2).
  - split; [vm_compute; discriminate|reflexivity].
  - reflexivity.
  - left. split; [discriminate|]. now exists 5%nat.
Defined.

(** * Further properties of the engine *)

(** ** Sequences and choices of any length *)

Section Alternatives.

Variable Name : Type.
Variable base : Name -> Grammar Name.
Variable context : string_view.

Lemma fuel_refines_all f f' :
  (f <= f')%nat ->
  refines_all (fun g => topdown_match base f g context)
              (fun g => topdown_match base f' g context).
Proof.
  intros Hle g i out Hrun Hout.
  now apply (topdown_match_mono Name base f f').
Qed.

(** The call of the base class [Seq<Clause1, Clauses...>] inside
    [Seq<Clause0, Clause1, Clauses...>] is a call of that grammar. *)
Lemma returns_seq_match c0 cs index out :
  returns base (Seq c0 cs) context index out <->
  out <> OutOfFuel /\
  exists f, seq_match (fun g => topdown_match base f g context) c0 cs index
            = out.
Proof.
  split; intros [Ho [f Hf]]; (split; [exact Ho|]).
  - destruct f as [|f]; [simpl in Hf; congruence|]. now exists f.
  - now exists (S f).
Qed.

Lemma returns_ord_match c0 cs index out :
  returns base (Ord c0 cs) context index out <->
  out <> OutOfFuel /\
  exists f, ord_match (fun g => topdown_match base f g context) c0 cs index
            = out.
Proof.
  split; intros [Ho [f Hf]]; (split; [exact Ho|]).
  - destruct f as [|f]; [simpl in Hf; congruence|]. now exists f.
  - now exists (S f).
Qed.

Lemma returns_single_seq c index out :
  returns base (Seq c []) context index out <->
  returns base c context index out.
Proof.
  rewrite returns_seq_match. reflexivity.
Qed.

Lemma returns_single_ord c index out :
  returns base (Ord c []) context index out <->
  returns base c context index out.
Proof.
  rewrite returns_ord_match. reflexivity.
Qed.

Lemma returns_seq_cons c0 c1 cs index out :
  returns base (Seq c0 (c1 :: cs)) context index out <->
  exists ra, returns base c0 context index ra /\
             seq_after (returns base (Seq c1 cs) context) index ra out.
Proof.
  rewrite returns_seq_match. split.
  - intros [Ho [f Hf]]. simpl in Hf.
    destruct (topdown_match base f c0 context index) as [[ka|]| |] eqn:Ea;
      simpl in Hf; try congruence.
    + exists (Done (Some ka)). split; [now apply (returns_intro _ _ _ f)|].
      simpl.
      destruct (seq_match (fun g => topdown_match base f g context) c1 cs
                          (size_add index ka)) as [snd| |] eqn:Eb;
        simpl in Hf; try congruence.
      * exists (Done snd). split; [|now rewrite <- Hf].
        apply returns_seq_match. split; [discriminate|]. now exists f.
      * exists Undefined. split; [|now rewrite <- Hf].
        apply returns_seq_match. split; [discriminate|]. now exists f.
    + exists (Done None). split; [now apply (returns_intro _ _ _ f)|].
      simpl. congruence.
    + exists Undefined. split; [now apply (returns_intro _ _ _ f)|].
      simpl. congruence.
  - intros [ra [Ha Hafter]].
    destruct (returns_at _ _ _ _ _ _ Ha) as [na Hna].
    destruct ra as [[ka|]| |]; simpl in Hafter; try contradiction.
    + destruct Hafter as [r [Hb ->]].
      apply returns_seq_match in Hb. destruct Hb as [Hr [nb Hnb]].
      split; [destruct r as [[s|]| |]; simpl; congruence|].
      exists (Nat.max na nb). simpl. rewrite Hna by lia. simpl.
      rewrite (seq_match_mono Name _ _ (fuel_refines_all nb (Nat.max na nb)
                 (Nat.le_max_r na nb)) cs c1 _ _ Hnb Hr).
      reflexivity.
    + subst out. split; [discriminate|].
      exists na. simpl. now rewrite Hna by lia.
    + subst out. split; [discriminate|].
      exists na. simpl. now rewrite Hna by lia.
Qed.

Lemma returns_ord_cons c0 c1 cs index out :
  returns base (Ord c0 (c1 :: cs)) context index out <->
  exists ra, returns base c0 context index ra /\
             ord_after (returns base (Ord c1 cs) context) index ra out.
Proof.
  rewrite returns_ord_match. split.
  - intros [Ho [f Hf]]. simpl in Hf.
    destruct (topdown_match base f c0 context index) as [[ka|]| |] eqn:Ea;
      simpl in Hf; try congruence.
    + exists (Done (Some ka)). split; [now apply (returns_intro _ _ _ f)|].
      simpl. congruence.
    + exists (Done None). split; [now apply (returns_intro _ _ _ f)|].
      simpl. apply returns_ord_match. split; [exact Ho|]. now exists f.
    + exists Undefined. split; [now apply (returns_intro _ _ _ f)|].
      simpl. congruence.
  - intros [ra [Ha Hafter]].
    destruct (returns_at _ _ _ _ _ _ Ha) as [na Hna].
    destruct ra as [[ka|]| |]; simpl in Hafter; try contradiction.
    + subst out. split; [discriminate|].
      exists na. simpl. now rewrite Hna by lia.
    + apply returns_ord_match in Hafter. destruct Hafter as [Hr [nb Hnb]].
      split; [exact Hr|].
      exists (Nat.max na nb). simpl. rewrite Hna by lia. simpl.
      exact (ord_match_mono Name _ _ (fuel_refines_all nb (Nat.max na nb)
               (Nat.le_max_r na nb)) cs c1 _ _ Hnb Hr).
    + subst out. split; [discriminate|].
      exists na. simpl. now rewrite Hna by lia.
Qed.

Lemma ord_skips_failures pre :
  forall c0 cs c post index out,
    c0 :: cs = pre ++ c :: post ->
    Forall (fails_at base context index) pre ->
    (returns base (Ord c0 cs) context index out <->
     returns base (Ord c post) context index out).
Proof.
  induction pre as [|p pre IH]; intros c0 cs c post index out E Hpre.
  - simpl in E. injection E as -> ->. reflexivity.
  - simpl in E. injection E as -> ->.
    inversion Hpre as [|p' pre' Hp Hpre']; subst.
    destruct pre as [|q pre].
    + simpl. rewrite returns_ord_cons. split.
      * intros [ra [Hra Hafter]].
        rewrite (returns_unique _ _ _ _ _ _ _ Hra Hp) in Hafter.
        exact Hafter.
      * intros H. exists (Done None). now split.
    + simpl. rewrite returns_ord_cons.
      rewrite <- (IH q (pre ++ c :: post) c post index out eq_refl Hpre').
      split.
      * intros [ra [Hra Hafter]].
        rewrite (returns_unique _ _ _ _ _ _ _ Hra Hp) in Hafter.
        exact Hafter.
      * intros H. exists (Done None). now split.
Qed.

End Alternatives.

(** X3.  A sequence of several clauses is the sequence of its first clause
    and of the sequence of the others:
    [Seq<c0, c1, cs...>] returns what [Seq<c0, Seq<c1, cs...>>] returns. *)
Theorem seq_is_nested_seq :
  forall (Name : Type) (base : Name -> Grammar Name)
         (c0 c1 : Grammar Name) (cs : list (Grammar Name))
         (context : string_view) (index : size_t) (out : matched),
    returns base (Seq c0 (c1 :: cs)) context index out <->
    returns base (Seq c0 [Seq c1 cs]) context index out.
Proof.
  intros Name base c0 c1 cs context index out.
  rewrite returns_seq_cons. rewrite returns_seq2. reflexivity.
Qed.

(** X4.  A choice between several clauses is the choice between its first
    clause and the choice between the others:
    [Ord<c0, c1, cs...>] returns what [Ord<c0, Ord<c1, cs...>>] returns. *)
Theorem ord_is_nested_ord :
  forall (Name : Type) (base : Name -> Grammar Name)
         (c0 c1 : Grammar Name) (cs : list (Grammar Name))
         (context : string_view) (index : size_t) (out : matched),
    returns base (Ord c0 (c1 :: cs)) context index out <->
    returns base (Ord c0 [Ord c1 cs]) context index out.
Proof.
  intros Name base c0 c1 cs context index out.
  rewrite returns_ord_cons. rewrite returns_ord2. reflexivity.
Qed.

(** X5.  A choice of any length fails exactly when every alternative
    fails. *)
Theorem ord_fails_iff_all_fail :
  forall (Name : Type) (base : Name -> Grammar Name)
         (cs : list (Grammar Name)) (c0 : Grammar Name)
         (context : string_view) (index : size_t),
    returns base (Ord c0 cs) context index (Done None) <->
    Forall (fails_at base context index) (c0 :: cs).
Proof.
  intros Name base cs. induction cs as [|c1 cs IH]; intros c0 context index.
  - rewrite returns_single_ord. split.
    + intros H. constructor; [exact H|constructor].
    + intros H. now inversion H.
  - rewrite returns_ord_cons. split.
    + intros [[[ka|]| |] [Hra Hafter]]; simpl in Hafter;
        try discriminate; try contradiction.
      constructor; [exact Hra|]. now apply IH.
    + intros H. inversion H as [|c l H0 Hrest]; subst.
      exists (Done None). split; [exact H0|]. simpl. now apply IH.
Qed.

(** X6.  A choice returns what its first alternative that does not fail
    returns: when the alternatives before [c] all fail and [c] succeeds,
    ends at a read outside the array, or is followed by nothing, the
    choice returns what [c] returns, whatever the alternatives after [c]
    would do. *)
Theorem ord_first_success_wins :
  forall (Name : Type) (base : Name -> Grammar Name)
         (pre post : list (Grammar Name)) (c0 c : Grammar Name)
         (cs : list (Grammar Name))
         (context : string_view) (index : size_t) (out : matched),
    c0 :: cs = pre ++ c :: post ->
    Forall (fails_at base context index) pre ->
    returns base c context index out ->
    out <> Done None \/ post = [] ->
    returns base (Ord c0 cs) context index out.
Proof.
  intros Name base pre post c0 c cs context index out E Hpre Hc Hout.
  apply (ord_skips_failures Name base context pre c0 cs c post index out
           E Hpre).
  destruct post as [|c1 post].
  - now apply returns_single_ord.
  - apply returns_ord_cons. exists out. split; [exact Hc|].
    destruct Hout as [Hout|Hout]; [|discriminate].
    destruct Hc as [Hfuel _].
    destruct out as [[k|]| |]; simpl; congruence.
Qed.

Lemma ord_first_success_wins_witness :
  returns arith_base
          (Ord (Char (lit "a")) [Char (lit "b"); Rule Digit; Rule Number])
          (sv_of_literal "7") 0 (Done (Some 1)).
Proof.
  apply (ord_first_success_wins ArithRule arith_base
           [Char (lit "a"); Char (lit "b")] [Rule Number]
           (Char (lit "a")) (Rule Digit)
           [Char (lit "b"); Rule Digit; Rule Number]
           (sv_of_literal "7") 0 (Done (Some 1))).
  - reflexivity.
  - constructor; [|constructor; [|constructor]];
      (split; [discriminate|now exists 1%nat]).
  - split; [discriminate|now exists 2%nat].
  - left. discriminate.
Defined.

(** X7.  Choice is associative: [Ord<Ord<a, b>, c>] and [Ord<a, Ord<b, c>>]
    return the same. *)
Theorem ord_assoc :
  forall (Name : Type) (base : Name -> Grammar Name) (a b c : Grammar Name)
         (context : string_view) (index : size_t) (out : matched),
    returns base (Ord (Ord a [b]) [c]) context index out <->
    returns base (Ord a [Ord b [c]]) context index out.
Proof.
  intros Name base a b c context index out.
  rewrite (returns_ord2 _ _ _ (Ord a [b]) c).
  rewrite (returns_ord2 _ _ _ a (Ord b [c])).
  split.
  - intros [rab [Hab Hc]]. apply returns_ord2 in Hab.
    destruct Hab as [ra [Ha Hb]]. exists ra. split; [exact Ha|].
    destruct ra as [[ka|]| |]; simpl in Hb |- *; try contradiction;
      try (subst rab; exact Hc).
    apply returns_ord2. exists rab. now split.
  - intros [ra [Ha Hbc]].
    destruct ra as [[ka|]| |]; simpl in Hbc; try contradiction.
    + subst out. exists (Done (Some ka)). split; [|reflexivity].
      apply returns_ord2. exists (Done (Some ka)). now split.
    + apply returns_ord2 in Hbc. destruct Hbc as [rb [Hrb Hc]].
      exists rb. split; [|exact Hc].
      apply returns_ord2. exists (Done None). now split.
    + subst out. exists Undefined. split; [|reflexivity].
      apply returns_ord2. exists Undefined. now split.
Qed.

(** X8.  Choice is idempotent: [Ord<a, a>] returns what [a] returns. *)
Theorem ord_idempotent :
  forall (Name : Type) (base : Name -> Grammar Name) (a : Grammar Name)
         (context : string_view) (index : size_t) (out : matched),
    returns base (Ord a [a]) context index out <->
    returns base a context index out.
Proof.
  intros Name base a context index out. rewrite returns_ord2. split.
  - intros [[[ka|]| |] [Ha Hafter]]; simpl in Hafter;
      try contradiction; try exact Hafter; now subst out.
  - intros Ha. exists out. split; [exact Ha|].
    destruct out as [[k|]| |]; simpl;
      [reflexivity|exact Ha|reflexivity|destruct Ha; congruence].
Qed.

(** X9.  A sequence fails as soon as its first clause fails, whatever the
    clauses after it are: they are not called. *)
Theorem seq_fails_with_first_clause :
  forall (Name : Type) (base : Name -> Grammar Name) (c0 : Grammar Name)
         (cs : list (Grammar Name)) (context : string_view)
         (index : size_t),
    returns base c0 context index (Done None) ->
    returns base (Seq c0 cs) context index (Done None).
Proof.
  intros Name base c0 [|c1 cs] context index H0.
  - now apply returns_single_seq.
  - apply returns_seq_cons. exists (Done None). now split.
Qed.

Lemma seq_fails_with_first_clause_witness :
  returns arith_base (Seq (Rule Digit) [Asterisk Start; Char (lit "x")])
          (sv_of_literal "x") 0 (Done None).
Proof.
  apply (seq_fails_with_first_clause ArithRule arith_base (Rule Digit)
           [Asterisk Start; Char (lit "x")] (sv_of_literal "x") 0).
  split; [discriminate|now exists 2%nat].
Defined.

(** ** Consumed lengths are [size_t] values *)

Lemma asterisk_loop_small (m : size_t -> matched) (fuel : nat) :
  forall index count current t,
    is_size_t count ->
    asterisk_loop m fuel index count current = Done (Some t) ->
    is_size_t t.
Proof.
  induction fuel as [|fuel IH]; intros index count [c|] t Hcount Hrun;
    simpl in Hrun; try discriminate; try (injection Hrun as <-; exact Hcount).
  destruct (m (size_add index (size_add count c))) as [cur| |];
    simpl in Hrun; try discriminate.
  apply (IH _ _ _ _ (size_add_is_size_t count c) Hrun).
Qed.

Section Small.

Variable Name : Type.
Variable base : Name -> Grammar Name.
Variable context : string_view.

Lemma seq_match_small (m : Grammar Name -> size_t -> matched) :
  (forall g, small_results (m g)) ->
  forall Clauses Clause0, small_results (seq_match m Clause0 Clauses).
Proof.
  intros Hm. induction Clauses as [|Clause1 Clauses IH];
    intros Clause0 i k Hrun; simpl in Hrun.
  - now apply (Hm Clause0 i).
  - destruct (m Clause0 i) as [[f|]| |]; simpl in Hrun; try discriminate.
    destruct (seq_match m Clause1 Clauses (size_add i f)) as [[s|]| |];
      simpl in Hrun; try discriminate.
    injection Hrun as <-. apply size_add_is_size_t.
Qed.

Lemma ord_match_small (m : Grammar Name -> size_t -> matched) :
  (forall g, small_results (m g)) ->
  forall Clauses Clause0, small_results (ord_match m Clause0 Clauses).
Proof.
  intros Hm. induction Clauses as [|Clause1 Clauses IH];
    intros Clause0 i k Hrun; simpl in Hrun.
  - now apply (Hm Clause0 i).
  - destruct (m Clause0 i) as [[f|]| |] eqn:E0; simpl in Hrun;
      try discriminate.
    + injection Hrun as <-. now apply (Hm Clause0 i).
    + now apply (IH Clause1 i).
Qed.

Lemma topdown_match_small (fuel : nat) :
  forall g, small_results (topdown_match base fuel g context).
Proof.
  induction fuel as [|fuel IH]; intros g i k Hrun; simpl in Hrun;
    [discriminate|].
  destruct g
    as [| |C|lo hi|Clause|Clause|Clause0 Clauses|Clause0 Clauses|name].
  - destruct (i =? 0); injection Hrun as <- || discriminate. reflexivity.
  - destruct (sv_size context <=? i);
      injection Hrun as <- || discriminate. reflexivity.
  - destruct (sv_at context i) as [c|]; [|discriminate].
    destruct (c =? C)%Z; injection Hrun as <- || discriminate. reflexivity.
  - destruct (sv_at context i) as [c|]; [|discriminate].
    destruct ((lo <=? c)%Z && (c <=? hi)%Z)%bool;
      injection Hrun as <- || discriminate. reflexivity.
  - destruct (topdown_match base fuel Clause context (size_add i 0))
      as [[c|]| |]; simpl in Hrun; try discriminate.
    + rewrite plus_loop_entered in Hrun.
      apply (asterisk_loop_small _ _ _ _ _ _ (eq_refl : is_size_t 0) Hrun).
    + destruct fuel; discriminate.
  - destruct (topdown_match base fuel Clause context (size_add i 0))
      as [cur| |]; simpl in Hrun; try discriminate.
    apply (asterisk_loop_small _ _ _ _ _ _ (eq_refl : is_size_t 0) Hrun).
  - now apply (seq_match_small _ IH Clauses Clause0 i).
  - now apply (ord_match_small _ IH Clauses Clause0 i).
  - now apply (IH (base name) i).
Qed.

Lemma returns_small g index k :
  returns base g context index (Done (Some k)) -> is_size_t k.
Proof.
  intros [_ [fuel H]]. now apply (topdown_match_small fuel g index).
Qed.

(** ** The anchors *)

Lemma returns_start index out :
  returns base Start context index out <->
  out = Done (if index =? 0 then Some 0 else None).
Proof.
  split.
  - intros [Ho [[|f] Hf]]; simpl in Hf; congruence.
  - intros ->. split; [discriminate|]. now exists 1%nat.
Qed.

Lemma returns_end index out :
  returns base End context index out <->
  out = Done (if sv_size context <=? index then Some 0 else None).
Proof.
  split.
  - intros [Ho [[|f] Hf]]; simpl in Hf; congruence.
  - intros ->. split; [discriminate|]. now exists 1%nat.
Qed.

End Small.

(** X10.  The anchored sequence [Seq<Start, g, End>], the shape of
    [Toplevel], succeeds at offset 0 with [k] exactly when [g] succeeds at
    offset 0 with [k] and [k] reaches the end of the input; at any other
    offset a sequence that begins with [Start] fails. *)
Theorem anchored_match :
  forall (Name : Type) (base : Name -> Grammar Name) (g : Grammar Name)
         (context : string_view),
    (forall k,
        returns base (Seq Start [g; End]) context 0 (Done (Some k)) <->
        returns base g context 0 (Done (Some k)) /\ sv_size context <= k) /\
    (forall cs index,
        index <> 0 ->
        returns base (Seq Start cs) context index (Done None)).
Proof.
  intros Name base g context. split.
  - intros k. rewrite returns_seq_cons. split.
    + intros [ra [Hstart Hafter]].
      apply returns_start in Hstart. subst ra. simpl in Hafter.
      destruct Hafter as [r [Hr E]].
      change (size_add 0 0) with 0 in Hr.
      apply returns_seq2 in Hr. destruct Hr as [rg [Hg Hend]].
      destruct rg as [[kg|]| |]; simpl in Hend; try contradiction;
        try (subst r; discriminate).
      destruct Hend as [re [He ->]].
      apply returns_end in He. subst re.
      pose proof (returns_small _ _ _ _ _ _ Hg) as Hkg.
      assert (E0 : size_add 0 kg = kg).
      { rewrite size_add_comm. now apply size_add_0_r. }
      rewrite E0 in E.
      destruct (sv_size context <=? kg) eqn:Hle; simpl in E;
        [|discriminate].
      rewrite (size_add_0_r kg Hkg), E0 in E. injection E as ->.
      split; [exact Hg|]. now apply N.leb_le.
    + intros [Hg Hle].
      pose proof (returns_small _ _ _ _ _ _ Hg) as Hk.
      assert (E0 : size_add 0 k = k).
      { rewrite size_add_comm. now apply size_add_0_r. }
      exists (Done (Some 0)). split; [now apply returns_start|]. simpl.
      exists (Done (Some k)). split.
      * change (size_add 0 0) with 0.
        apply returns_seq2. exists (Done (Some k)). split; [exact Hg|].
        simpl. exists (Done (Some 0)). split.
        -- apply returns_end. rewrite E0.
           apply N.leb_le in Hle. now rewrite Hle.
        -- simpl. now rewrite (size_add_0_r k Hk).
      * simpl. now rewrite E0.
  - intros cs index Hindex.
    assert (Hstart : returns base Start context index (Done None)).
    { apply returns_start. apply N.eqb_neq in Hindex. now rewrite Hindex. }
    destruct cs as [|c1 cs].
    + now apply returns_single_seq.
    + apply returns_seq_cons. exists (Done None). now split.
Qed.

(** X11.  In a sequence no addition wraps around: for a well-formed view,
    [Seq<a, b>] succeeds at [index] with [t] exactly when [a] succeeds at
    [index] with some [ka], [b] succeeds at [index + ka] with some [kb],
    and [t = ka + kb]; it fails exactly when [a] fails at [index], or [a]
    succeeds with some [ka] and [b] fails at [index + ka]. *)
Theorem seq_adds_without_wrap :
  forall (Name : Type) (base : Name -> Grammar Name) (a b : Grammar Name)
         (context : string_view) (index : size_t),
    sv_wf context ->
    is_size_t index ->
    (forall t,
        returns base (Seq a [b]) context index (Done (Some t)) <->
        exists ka kb,
          returns base a context index (Done (Some ka)) /\
          returns base b context (index + ka) (Done (Some kb)) /\
          t = ka + kb) /\
    (returns base (Seq a [b]) context index (Done None) <->
     returns base a context index (Done None) \/
     exists ka,
       returns base a context index (Done (Some ka)) /\
       returns base b context (index + ka) (Done None)).
Proof.
  intros Name base a b context index [_ Hlen] Hi.
  assert (Hoff : forall ka,
             returns base a context index (Done (Some ka)) ->
             size_add index ka = index + ka /\
             (ka = 0 \/ index + ka <= array_len context)).
  { intros ka Ha.
    pose proof (returns_in_array Name base context a _ _ Hlen Hi Ha) as Hin.
    simpl in Hin. split; [|exact Hin].
    destruct Hin as [->|Hin].
    - rewrite N.add_0_r. now apply size_add_0_r.
    - now apply (size_add_bounded _ _ _ Hlen). }
  assert (Hsum : forall ka kb,
             returns base a context index (Done (Some ka)) ->
             returns base b context (index + ka) (Done (Some kb)) ->
             size_add ka kb = ka + kb).
  { intros ka kb Ha Hb. destruct (Hoff ka Ha) as [E Hin].
    assert (Hi' : is_size_t (index + ka)).
    { rewrite <- E. apply size_add_is_size_t. }
    pose proof (returns_in_array Name base context b _ _ Hlen Hi' Hb)
      as Hinb.
    simpl in Hinb.
    apply (size_add_bounded (array_len context)); [exact Hlen|lia]. }
  split.
  - intros t. rewrite returns_seq2. split.
    + intros [[[ka|]| |] [Ha Hafter]]; simpl in Hafter;
        try discriminate; try contradiction.
      destruct Hafter as [[[kb|]| |] [Hb E]]; simpl in E; try discriminate.
      injection E as ->.
      rewrite (proj1 (Hoff ka Ha)) in Hb.
      exists ka, kb. split; [exact Ha|]. split; [exact Hb|].
      now apply Hsum.
    + intros [ka [kb [Ha [Hb ->]]]].
      exists (Done (Some ka)). split; [exact Ha|]. simpl.
      exists (Done (Some kb)). split.
      * now rewrite (proj1 (Hoff ka Ha)).
      * simpl. now rewrite (Hsum ka kb Ha Hb).
  - rewrite returns_seq2. split.
    + intros [[[ka|]| |] [Ha Hafter]]; simpl in Hafter;
        try discriminate; try contradiction.
      * destruct Hafter as [[[kb|]| |] [Hb E]]; simpl in E;
          try discriminate.
        right. exists ka. split; [exact Ha|].
        now rewrite <- (proj1 (Hoff ka Ha)).
      * now left.
    + intros [Ha|[ka [Ha Hb]]].
      * exists (Done None). now split.
      * exists (Done (Some ka)). split; [exact Ha|]. simpl.
        exists (Done None). split; [|reflexivity].
        now rewrite (proj1 (Hoff ka Ha)).
Qed.

Lemma seq_adds_without_wrap_witness :
  returns arith_base (Seq (Rule Number) [Char (lit "+")])
          (sv_of_literal "12+3") 0 (Done (Some 3)).
Proof.
  assert (Hwf : sv_wf (sv_of_literal "12+3")).
  { split; [vm_compute; discriminate|reflexivity]. }
  apply (seq_adds_without_wrap ArithRule arith_base (Rule Number)
           (Char (lit "+")) (sv_of_literal "12+3") 0 Hwf eq_refl).
  exists 2, 1. split; [|split; [|reflexivity]].
  - split; [discriminate|now exists 5%nat].
  - split; [discriminate|now exists 1%nat].
Defined.

(** ** Repetition of a grammar that never fails *)

Section NeverFails.

Variable Name : Type.
Variable base : Name -> Grammar Name.
Variable context : string_view.
Variable sub : Grammar Name.

Lemma asterisk_not_none index :
  ~ returns base (Asterisk sub) context index (Done None).
Proof.
  intros H. apply returns_asterisk in H.
  destruct H as [[t| |] [_ E]]; discriminate.
Qed.

Lemma repetition_result_needs_failure index r :
  returns base (Plus sub) context index (Done r) \/
  returns base (Asterisk sub) context index (Done r) ->
  exists i, returns base sub context i (Done None).
Proof.
  intros [H|H].
  - apply returns_plus in H.
    destruct H as [[[k|]| |] [H1 Hafter]]; simpl in Hafter;
      try discriminate; try contradiction.
    + destruct Hafter as [[t| |] [Hends E]]; simpl in E; try discriminate.
      exists (size_add index t).
      now apply (loop_ends_at_failure _ _ _ _ _ _ _ Hends).
    + now exists (size_add index 0).
  - apply returns_asterisk in H.
    destruct H as [[t| |] [Hends E]]; simpl in E; try discriminate.
    exists (size_add index t).
    now apply (loop_ends_at_failure _ _ _ _ _ _ _ Hends).
Qed.

End NeverFails.

(** X12.  The loops of [Plus] and [Asterisk] are left only at a failure of
    the clause: when [sub] never fails, [Plus<sub>] and [Asterisk<sub>]
    return no result at all, neither a success nor a failure.  [Asterisk]
    never fails, so a repetition of a repetition, [Asterisk<Asterisk<sub>>]
    or [Plus<Asterisk<sub>>], returns no result, whatever [sub] is. *)
Theorem repetition_of_unfailing_clause :
  forall (Name : Type) (base : Name -> Grammar Name) (sub : Grammar Name)
         (context : string_view) (index : size_t) (r : option size_t),
    ((forall i, ~ returns base sub context i (Done None)) ->
     ~ returns base (Plus sub) context index (Done r) /\
     ~ returns base (Asterisk sub) context index (Done r)) /\
    ~ returns base (Plus (Asterisk sub)) context index (Done r) /\
    ~ returns base (Asterisk (Asterisk sub)) context index (Done r).
Proof.
  intros Name base sub context index r.
  assert (Hgen : forall s,
             (forall i, ~ returns base s context i (Done None)) ->
             ~ returns base (Plus s) context index (Done r) /\
             ~ returns base (Asterisk s) context index (Done r)).
  { intros s Hnever. split; intros H;
      destruct (repetition_result_needs_failure Name base context s index r)
        as [i Hi]; auto; exact (Hnever i Hi). }
  split; [apply Hgen|].
  apply (Hgen (Asterisk sub)). intros i. apply asterisk_not_none.
Qed.

(** X13.  [Asterisk<sub>] is [Plus<sub>] or nothing: it succeeds with what
    [Plus<sub>] succeeds with, and with 0 when [Plus<sub>] fails; and these
    are its only successes. *)
Theorem asterisk_is_plus_or_empty :
  forall (Name : Type) (base : Name -> Grammar Name) (sub : Grammar Name)
         (context : string_view) (index t : size_t),
    returns base (Asterisk sub) context index (Done (Some t)) <->
    returns base (Plus sub) context index (Done (Some t)) \/
    (t = 0 /\ returns base (Plus sub) context index (Done None)).
Proof.
  intros Name base sub context index t.
  rewrite returns_asterisk, returns_plus_none, returns_plus. split.
  - intros [[t'| |] [Hends E]]; simpl in E; try discriminate.
    injection E as <-.
    inversion Hends as [count Hsub|count Hsub|count k out Hsub Hends' E1 E2];
      subst.
    + right. now split.
    + left. exists (Done (Some k)). split; [exact Hsub|]. simpl.
      now exists (Done t).
  - intros [[[[k|]| |] [H1 Hafter]]|[-> Hnone]].
    + simpl in Hafter.
      destruct Hafter as [[t'| |] [Hends E]]; simpl in E; try discriminate.
      injection E as <-. exists (Done t). split; [|reflexivity].
      now apply (loop_again _ _ _ _ 0 k).
    + discriminate Hafter.
    + discriminate Hafter.
    + contradiction.
    + exists (Done 0). split; [|reflexivity]. now apply loop_stop.
Qed.

(** X14.  [Plus] keeps what it needs of its clause: for a well-formed view,
    when every success of [sub] consumes at least 1, every success of
    [Plus<sub>] consumes at least 1 and ends inside the array. *)
Theorem plus_consumes_at_least_one :
  forall (Name : Type) (base : Name -> Grammar Name) (sub : Grammar Name)
         (context : string_view) (index t : size_t),
    sv_wf context ->
    is_size_t index ->
    (forall i k, returns base sub context i (Done (Some k)) -> 1 <= k) ->
    returns base (Plus sub) context index (Done (Some t)) ->
    1 <= t /\ index + t <= array_len context.
Proof.
  intros Name base sub context index t [_ Hlen] Hi Hconsumes Hplus.
  apply returns_plus in Hplus.
  destruct Hplus as [[[k|]| |] [H1 Hafter]]; simpl in Hafter;
    try discriminate; try contradiction.
  destruct Hafter as [[t'| |] [Hends E]]; simpl in E; try discriminate.
  injection E as <-.
  apply loop_ends_iterations in Hends.
  destruct Hends as [ks [Hks [Ht _]]].
  assert (Hall : iterations base context sub index 0 (k :: ks)).
  { now apply iterations_cons. }
  destruct (iterations_bounded Name base context sub Hlen Hconsumes
              index 0 (k :: ks) Hall Hi) as [E|[Hn Hin]];
    [now left|discriminate|].
  change (accumulate 0 (k :: ks)) with (accumulate (size_add 0 k) ks) in *.
  rewrite <- Ht in *. simpl List.length in Hn. lia.
Qed.

Lemma plus_consumes_at_least_one_witness :
  1 <= 2 /\ 0 + 2 <= array_len (sv_of_literal "12+").
Proof.
  assert (Hwf : sv_wf (sv_of_literal "12+")).
  { split; [vm_compute; discriminate|reflexivity]. }
  assert (Hconsumes : forall i k,
             returns arith_base (Rule Digit) (sv_of_literal "12+") i
                     (Done (Some k)) -> 1 <= k).
  { intros i k [_ [fuel H]].
    destruct fuel as [|[|fuel]]; simpl in H; try discriminate.
    destruct (sv_at (sv_of_literal "12+") i) as [c|]; [|discriminate].
    match type of H with
    | context [if ?b then _ else _] => destruct b; [|discriminate]
    end.
    injection H as <-. vm_compute. discriminate. }
  apply (plus_consumes_at_least_one ArithRule arith_base (Rule Digit)
           (sv_of_literal "12+") 0 2 Hwf eq_refl Hconsumes).
  split; [discriminate|now exists 5%nat].
Defined.

(** ** Runs of characters in a range *)

Lemma skipn_cons_nth {A : Type} (l : list A) :
  forall n c rest,
    skipn n l = c :: rest ->
    nth_error l n = Some c /\ skipn (S n) l = rest.
Proof.
  induction l as [|a l IH]; intros [|n] c rest H; simpl in H;
    try discriminate.
  - injection H as -> ->. split; reflexivity.
  - apply (IH n c rest H).
Qed.

Lemma skipn_nil_length {A : Type} (l : list A) :
  forall n, skipn n l = [] -> (List.length l <= n)%nat.
Proof.
  induction l as [|a l IH]; intros [|n] H; simpl in *;
    try discriminate; try lia.
  apply IH in H. lia.
Qed.

Section Runs.

Variable Name : Type.
Variable base : Name -> Grammar Name.
Variable context : string_view.
Variable lo hi : char.

Lemma returns_char_range index :
  returns base (CharRange lo hi) context index
    match sv_at context index with
    | Some c => Done (if in_range lo hi c then Some 1 else None)
    | None => Undefined
    end.
Proof.
  split.
  - destruct (sv_at context index) as [c|]; discriminate.
  - now exists 1%nat.
Qed.

Lemma plus_from_loop (sub : Grammar Name) index out :
  loop_ends base context sub index 0 out ->
  returns base (Plus sub) context index (lift out) \/
  (out = Done 0 /\ returns base (Plus sub) context index (Done None)).
Proof.
  intros H.
  inversion H as [count Hsub|count Hsub|count k out' Hsub Hends]; subst.
  - right. split; [reflexivity|]. now apply returns_plus_none.
  - left. apply returns_plus. exists Undefined. now split.
  - left. apply returns_plus. exists (Done (Some k)). split; [exact Hsub|].
    simpl. now exists out.
Qed.

Hypothesis len_size_t : is_size_t (array_len context).

Lemma range_loop_ends index l :
  forall count,
    skipn (N.to_nat (index + count)) (sv_data context) = l ->
    index + count <= array_len context ->
    loop_ends base context (CharRange lo hi) index count
      (if index + count + run_length (in_range lo hi) l
          <? array_len context
       then Done (count + run_length (in_range lo hi) l)
       else Undefined).
Proof.
  induction l as [|c rest IH]; intros count Hskip Hle;
    pose proof (size_add_bounded _ _ _ len_size_t Hle) as Hoff;
    pose proof (returns_char_range (size_add index count)) as Hsub;
    rewrite Hoff in Hsub; unfold sv_at in Hsub.
  - apply skipn_nil_length in Hskip.
    assert (Hnone : nth_error (sv_data context) (N.to_nat (index + count))
                    = None) by now apply nth_error_None.
    rewrite Hnone in Hsub. simpl run_length.
    assert (E : (index + count + 0 <? array_len context) = false).
    { apply N.ltb_ge. unfold array_len. lia. }
    rewrite E. apply loop_undefined. now rewrite Hoff.
  - destruct (skipn_cons_nth _ _ _ _ Hskip) as [Hnth Hrest].
    rewrite Hnth in Hsub.
    assert (Hlt : index + count < array_len context).
    { unfold array_len.
      assert ((N.to_nat (index + count)
               < List.length (sv_data context))%nat)
        by (apply nth_error_Some; congruence).
      lia. }
    simpl run_length. destruct (in_range lo hi c).
    + assert (Hone : size_add count 1 = count + 1).
      { apply (size_add_bounded (array_len context));
          [exact len_size_t|lia]. }
      apply (loop_again _ _ _ _ count 1); [now rewrite Hoff|].
      rewrite Hone.
      replace (index + count + N.succ (run_length (in_range lo hi) rest))
        with (index + (count + 1) + run_length (in_range lo hi) rest)
        by lia.
      replace (count + N.succ (run_length (in_range lo hi) rest))
        with (count + 1 + run_length (in_range lo hi) rest) by lia.
      apply IH; [|lia].
      rewrite <- Hrest. f_equal. lia.
    + assert (E : (index + count + 0 <? array_len context) = true).
      { apply N.ltb_lt. lia. }
      rewrite E, N.add_0_r. apply loop_stop. now rewrite Hoff.
Qed.

End Runs.

(** X15.  Repetition of a character range consumes the whole run.  For a
    well-formed view and [index] inside the array, let [n] be the number of
    consecutive characters from [index] that lie in [[lo, hi]].  When the
    run stops before the end of the array, [Asterisk<CharRange<lo, hi>>]
    returns [n], and [Plus<CharRange<lo, hi>>] returns [n] when [n] is not
    0 and fails when it is.  When the run goes to the end of the array,
    both loops read outside it. *)
Theorem range_repetition_consumes_run :
  forall (Name : Type) (base : Name -> Grammar Name) (lo hi : char)
         (context : string_view) (index : size_t),
    sv_wf context ->
    index <= array_len context ->
    let n := run_length (in_range lo hi)
                        (skipn (N.to_nat index) (sv_data context)) in
    (index + n < array_len context ->
     returns base (Asterisk (CharRange lo hi)) context index (Done (Some n))
     /\
     returns base (Plus (CharRange lo hi)) context index
             (Done (if n =? 0 then None else Some n))) /\
    (array_len context <= index + n ->
     returns base (Asterisk (CharRange lo hi)) context index Undefined /\
     returns base (Plus (CharRange lo hi)) context index Undefined).
Proof.
  intros Name base lo hi context index [_ Hlen] Hle n.
  assert (Hloop := range_loop_ends Name base context lo hi Hlen index
                     (skipn (N.to_nat index) (sv_data context)) 0).
  rewrite !N.add_0_r, N.add_0_l in Hloop.
  specialize (Hloop eq_refl Hle). fold n in Hloop.
  split; intros Hn.
  - apply N.ltb_lt in Hn. rewrite Hn in Hloop. split.
    + apply returns_asterisk. now exists (Done n).
    + destruct (plus_from_loop Name base context _ _ _ Hloop)
        as [Hplus|[E Hplus]].
      * destruct (n =? 0) eqn:E0; [|exact Hplus].
        apply N.eqb_eq in E0. rewrite E0 in Hloop.
        inversion Hloop as [count Hsub|count Hsub|count k out Hsub Hends];
          subst.
        -- now apply returns_plus_none.
        -- exfalso.
           assert (Hk : k = 1).
           { pose proof (returns_char_range Name base context lo hi
                           (size_add index 0)) as Hr.
             pose proof (returns_unique _ _ _ _ _ _ _ Hsub Hr) as E.
             destruct (sv_at context (size_add index 0)) as [c|];
               [|discriminate].
             destruct (in_range lo hi c); [|discriminate].
             now injection E. }
           subst k.
           apply loop_ends_iterations in Hends.
           destruct Hends as [ks [Hks [Ht Hfail]]].
           assert (His : is_size_t index).
           { unfold is_size_t in *. lia. }
           assert (Hall : iterations base context (CharRange lo hi)
                                     index 0 (1 :: ks)).
           { now apply iterations_cons. }
           assert (Hconsumes : forall i k,
                      returns base (CharRange lo hi) context i
                              (Done (Some k)) -> 1 <= k).
           { intros i k Hik.
             pose proof (returns_char_range Name base context lo hi i)
               as Hr.
             pose proof (returns_unique _ _ _ _ _ _ _ Hik Hr) as E.
             destruct (sv_at context i) as [c|]; [|discriminate].
             destruct (in_range lo hi c); [|discriminate].
             injection E as ->. discriminate. }
           destruct (iterations_bounded Name base context _ Hlen Hconsumes
                       index 0 (1 :: ks) Hall His)
             as [E|[Hlen1 _]]; [now left|discriminate|].
           change (accumulate 0 (1 :: ks))
             with (accumulate (size_add 0 1) ks) in Hlen1.
           rewrite <- Ht in Hlen1. simpl List.length in Hlen1. lia.
      * injection E as ->. exact Hplus.
  - apply N.ltb_ge in Hn. rewrite Hn in Hloop. split.
    + apply returns_asterisk. now exists Undefined.
    + destruct (plus_from_loop Name base context _ _ _ Hloop)
        as [Hplus|[E _]]; [exact Hplus|discriminate].
Qed.

Lemma range_repetition_consumes_run_witness :
  returns arith_base (Asterisk (CharRange (lit "0") (lit "9")))
          (sv_of_literal "a2024b") 1 (Done (Some 4)).
Proof.
  assert (Hwf : sv_wf (sv_of_literal "a2024b")).
  { split; [vm_compute; discriminate|reflexivity]. }
  assert (Hle : 1 <= array_len (sv_of_literal "a2024b")).
  { vm_compute. discriminate. }
  apply (range_repetition_consumes_run ArithRule arith_base
           (lit "0") (lit "9") (sv_of_literal "a2024b") 1 Hwf Hle).
  reflexivity.
Defined.

(** ** The memo key *)

Lemma size_neg_involutive (a : size_t) :
  is_size_t a -> size_neg (size_neg a) = a.
Proof.
  unfold is_size_t, size_neg. intros Ha.
  destruct (N.eq_dec a 0) as [->|Hpos].
  - reflexivity.
  - rewrite (N.mod_small (2 ^ SIZE_WIDTH - a)) by lia.
    rewrite N.mod_small by lia. lia.
Qed.

Lemma lxor_cancel_l (a x y : N) : N.lxor a x = N.lxor a y -> x = y.
Proof.
  intros H.
  rewrite <- (N.lxor_0_l x), <- (N.lxor_0_l y).
  rewrite <- (N.lxor_nilpotent a), !N.lxor_assoc. now f_equal.
Qed.

Lemma lxor_cancel_r (a b x : N) : N.lxor a x = N.lxor b x -> a = b.
Proof.
  rewrite (N.lxor_comm a x), (N.lxor_comm b x). apply lxor_cancel_l.
Qed.

(** X16.  [MemoKeyHasher] keeps the offsets of one grammar apart and the
    grammars at one offset apart, as far as the hashes of the standard
    library do: when [std::hash<size_t>] is injective, two keys with the
    same instance and different offsets have different hashes; and two
    keys with the same offset have the same hash exactly when
    [std::hash<void *>] gives their instances the same hash. *)
Theorem memo_key_hash_separates :
  forall (hash_ptr : N -> size_t) (hash_size : size_t -> size_t),
    (forall a b, is_size_t a -> is_size_t b ->
                 hash_size a = hash_size b -> a = b) ->
    (forall p i j,
        is_size_t i -> is_size_t j ->
        MemoKeyHasher hash_ptr hash_size {| instance := p; index := i |} =
        MemoKeyHasher hash_ptr hash_size {| instance := p; index := j |} ->
        i = j) /\
    (forall p q i,
        MemoKeyHasher hash_ptr hash_size {| instance := p; index := i |} =
        MemoKeyHasher hash_ptr hash_size {| instance := q; index := i |} <->
        hash_ptr p = hash_ptr q).
Proof.
  intros hash_ptr hash_size Hinj. split.
  - intros p i j Hi Hj H. unfold MemoKeyHasher in H. simpl in H.
    apply lxor_cancel_l in H.
    apply Hinj in H;
      try (unfold is_size_t, size_neg; apply N.mod_lt; discriminate).
    rewrite <- (size_neg_involutive i Hi), <- (size_neg_involutive j Hj).
    now rewrite H.
  - intros p q i. unfold MemoKeyHasher. simpl. split.
    + apply lxor_cancel_r.
    + now intros ->.
Qed.

Lemma memo_key_hash_separates_witness :
  MemoKeyHasher (fun a => a mod 2 ^ SIZE_WIDTH) (fun a => a)
                {| instance := 4096; index := 11 |} <>
  MemoKeyHasher (fun a => a mod 2 ^ SIZE_WIDTH) (fun a => a)
                {| instance := 4096; index := 12 |}.
Proof.
  intros H.
  assert (Hinj : forall a b : size_t,
             is_size_t a -> is_size_t b ->
             (fun x : size_t => x) a = (fun x : size_t => x) b -> a = b).
  { intros a b _ _ E. exact E. }
  pose proof (proj1 (memo_key_hash_separates
                       (fun a => a mod 2 ^ SIZE_WIDTH) (fun a => a) Hinj)
                    4096 11 12 eq_refl eq_refl H) as E.
  discriminate E.
Defined.

(** ** Calls that return: a calculus of results *)

Section Totals.

Variable Name : Type.
Variable base : Name -> Grammar Name.
Variable context : string_view.
Hypothesis len_size_t : is_size_t (array_len context).

(** The offsets that calls are made at, and whether a call may end at a
    read outside the array. *)
Variable inside : N -> Prop.
Variable may_leave : Prop.
Hypothesis inside_size_t : forall i, inside i -> is_size_t i.

Lemma returns_rule name i out :
  returns base (Rule name) context i out <->
  returns base (base name) context i out.
Proof.
  split; intros [Ho [f Hf]]; (split; [exact Ho|]).
  - destruct f as [|f]; [simpl in Hf; congruence|]. now exists f.
  - now exists (S f).
Qed.

Lemma rule_returns_well name i :
  returns_well base context inside may_leave (base name) i ->
  returns_well base context inside may_leave (Rule name) i.
Proof.
  intros [out [H Hres]]. exists out. split; [|exact Hres].
  now apply returns_rule.
Qed.

Lemma single_seq_returns_well c i :
  returns_well base context inside may_leave c i ->
  returns_well base context inside may_leave (Seq c []) i.
Proof.
  intros [out [H Hres]]. exists out. split; [|exact Hres].
  now apply returns_single_seq.
Qed.

Lemma single_ord_returns_well c i :
  returns_well base context inside may_leave c i ->
  returns_well base context inside may_leave (Ord c []) i.
Proof.
  intros [out [H Hres]]. exists out. split; [|exact Hres].
  now apply returns_single_ord.
Qed.

Lemma seq_returns_well a b cs i :
  inside i ->
  returns_well base context inside may_leave a i ->
  (forall ka, 1 <= ka -> i + ka <= array_len context -> inside (i + ka) ->
              returns_well base context inside may_leave (Seq b cs) (i + ka)) ->
  returns_well base context inside may_leave (Seq a (b :: cs)) i.
Proof.
  intros Hi [ra [Ha Hres]] Hrest.
  destruct Hres as [->|[[ka [-> [Hka [Hin Hinside]]]]|[-> Hleave]]].
  - exists (Done None). split; [|now left].
    apply returns_seq_cons. exists (Done None). now split.
  - destruct (Hrest ka Hka Hin Hinside) as [rb [Hb Hresb]].
    assert (Hoff : size_add i ka = i + ka).
    { now apply (size_add_bounded (array_len context)). }
    assert (Hseq : forall out,
               out = (snd <- rb ;; Done (option_map (size_add ka) snd)) ->
               returns base (Seq a (b :: cs)) context i out).
    { intros out ->. apply returns_seq_cons.
      exists (Done (Some ka)). split; [exact Ha|]. simpl.
      exists rb. split; [now rewrite Hoff|reflexivity]. }
    destruct Hresb as [->|[[kb [-> [Hkb [Hinb Hinsideb]]]]|[-> Hleave]]].
    + exists (Done None). split; [now apply Hseq|now left].
    + exists (Done (Some (ka + kb))). split.
      * apply Hseq. simpl.
        rewrite (size_add_bounded (array_len context)); [reflexivity| |lia].
        exact len_size_t.
      * right. left. exists (ka + kb).
        rewrite N.add_assoc. repeat split; try assumption; lia.
    + exists Undefined. split; [now apply Hseq|]. right. right. now split.
  - exists Undefined. split; [|right; right; now split].
    apply returns_seq_cons. exists Undefined. now split.
Qed.

Lemma ord_returns_well a b cs i :
  returns_well base context inside may_leave a i ->
  (returns base a context i (Done None) ->
   returns_well base context inside may_leave (Ord b cs) i) ->
  returns_well base context inside may_leave (Ord a (b :: cs)) i.
Proof.
  intros [ra [Ha Hres]] Hrest.
  destruct Hres as [->|[[ka [-> Hk]]|[-> Hleave]]].
  - destruct (Hrest Ha) as [rb [Hb Hresb]].
    exists rb. split; [|exact Hresb].
    apply returns_ord_cons. exists (Done None). now split.
  - exists (Done (Some ka)). split.
    + apply returns_ord_cons. exists (Done (Some ka)). now split.
    + right. left. now exists ka.
  - exists Undefined. split; [|right; right; now split].
    apply returns_ord_cons. exists Undefined. now split.
Qed.

Variable sub : Grammar Name.
Hypothesis sub_returns_well :
  forall j, inside j -> returns_well base context inside may_leave sub j.

Lemma loop_returns_well i (n : nat) :
  forall count,
    i + count <= array_len context ->
    inside (i + count) ->
    (N.to_nat (array_len context - (i + count)) <= n)%nat ->
    exists out,
      loop_ends base context sub i count out /\
      ((exists t, out = Done t /\ count <= t /\
                  i + t <= array_len context /\ inside (i + t)) \/
       (out = Undefined /\ may_leave)).
Proof.
  induction n as [|n IH]; intros count Hle Hinside Hn;
    pose proof (size_add_bounded _ _ _ len_size_t Hle) as Hoff;
    destruct (sub_returns_well (i + count) Hinside) as [r [Hsub Hres]];
    rewrite <- Hoff in Hsub;
    (destruct Hres as [->|[[k [-> [Hk [Hin Hinsidek]]]]|[-> Hleave]]];
     [exists (Done count); split; [now apply loop_stop|];
      left; exists count; repeat split; try assumption; lia
     | |exists Undefined; split; [now apply loop_undefined|];
        right; now split]).
  - lia.
  - assert (Hck : size_add count k = count + k).
    { apply (size_add_bounded (array_len context));
        [exact len_size_t|lia]. }
    destruct (IH (count + k)) as [out [Hends Hout]].
    + lia.
    + now rewrite N.add_assoc.
    + lia.
    + exists out. split.
      * apply (loop_again _ _ _ _ count k); [exact Hsub|].
        now rewrite Hck.
      * destruct Hout as [[t [-> [Ht Hrest]]]|Hundef];
          [left; exists t; repeat split; try apply Hrest; lia
          |now right].
Qed.

Lemma plus_returns_well i :
  inside i -> returns_well base context inside may_leave (Plus sub) i.
Proof.
  intros Hinside.
  pose proof (size_add_0_r i (inside_size_t i Hinside)) as E0.
  destruct (sub_returns_well i Hinside) as [r [Hsub Hres]].
  rewrite <- E0 in Hsub.
  destruct Hres as [->|[[k [-> [Hk [Hin Hinsidek]]]]|[-> Hleave]]].
  - exists (Done None). split; [|now left]. now apply returns_plus_none.
  - assert (E1 : size_add 0 k = k).
    { apply (size_add_bounded (array_len context));
        [exact len_size_t|lia]. }
    destruct (loop_returns_well i
                (N.to_nat (array_len context - (i + k))) k Hin Hinsidek)
      as [out [Hends Hout]]; [lia|].
    exists (lift out). split.
    + apply returns_plus. exists (Done (Some k)). split; [exact Hsub|].
      simpl. exists out. split; [now rewrite E1|reflexivity].
    + destruct Hout as [[t [-> [Ht [Hint Hinsidet]]]]|[-> Hleave]].
      * right. left. exists t. simpl. repeat split; try assumption; lia.
      * right. right. now split.
  - exists Undefined. split; [|right; right; now split].
    apply returns_plus. exists Undefined. now split.
Qed.

End Totals.

(** ** The arithmetic grammar returns *)

Section Arith.

Variable context : string_view.
Hypothesis len_size_t : is_size_t (array_len context).
Variable inside : N -> Prop.
Variable may_leave : Prop.
Hypothesis inside_size_t : forall i, inside i -> is_size_t i.

Let well (g : Grammar ArithRule) (i : size_t) : Prop :=
  returns_well arith_base context inside may_leave g i.

(** The characters of the grammar. *)
Hypothesis digit_well :
  forall i, inside i -> well (CharRange (lit "0") (lit "9")) i.
Hypothesis char_well :
  forall C i,
    In C [lit "+"; lit "*"; lit "("; lit ")"] -> inside i -> well (Char C) i.

Lemma operator_well (C : char) (rule : ArithRule) i :
  In C [lit "+"; lit "*"; lit "("; lit ")"] ->
  inside i ->
  (forall j, inside j -> i < j -> j <= array_len context ->
             well (Rule rule) j) ->
  forall ka, 1 <= ka -> i + ka <= array_len context -> inside (i + ka) ->
    well (Seq (Char C) [Rule rule]) (i + ka).
Proof.
  intros HC Hi IH ka Hka Hin Hinside.
  apply (seq_returns_well ArithRule arith_base context len_size_t
           inside may_leave); [exact Hinside|now apply char_well|].
  intros kb Hkb Hinb Hinsideb.
  apply single_seq_returns_well. apply IH; [exact Hinsideb|lia|exact Hinb].
Qed.

Lemma arith_step i :
  inside i ->
  (forall j, inside j -> i < j -> j <= array_len context ->
     well (Rule Primary) j /\ well (Rule Multicative) j /\
     well (Rule Additive) j) ->
  well (Rule Digit) i /\ well (Rule Number) i /\ well (Rule Primary) i /\
  well (Rule Multicative) i /\ well (Rule Additive) i.
Proof.
  intros Hi IH.
  assert (Hdigit : forall j, inside j -> well (Rule Digit) j).
  { intros j Hj. apply rule_returns_well. now apply digit_well. }
  assert (Hnumber : well (Rule Number) i).
  { apply rule_returns_well.
    now apply (plus_returns_well ArithRule arith_base context len_size_t
                 inside may_leave inside_size_t (Rule Digit) Hdigit). }
  assert (Hprimary : well (Rule Primary) i).
  { apply rule_returns_well. simpl arith_base.
    apply ord_returns_well.
    - apply (seq_returns_well ArithRule arith_base context len_size_t
               inside may_leave); [exact Hi| |].
      + apply char_well; [|exact Hi]. simpl. tauto.
      + intros ka Hka Hin Hinside.
        apply (seq_returns_well ArithRule arith_base context len_size_t
                 inside may_leave); [exact Hinside| |].
        * apply IH; [exact Hinside|lia|exact Hin].
        * intros kb Hkb Hinb Hinsideb.
          apply single_seq_returns_well.
          apply char_well; [|exact Hinsideb]. simpl. tauto.
    - intros _. now apply single_ord_returns_well. }
  assert (Hmulticative : well (Rule Multicative) i).
  { apply rule_returns_well. simpl arith_base.
    apply ord_returns_well.
    - apply (seq_returns_well ArithRule arith_base context len_size_t
               inside may_leave); [exact Hi|exact Hprimary|].
      apply operator_well; [simpl; tauto|exact Hi|].
      intros j Hj Hlt Hle. apply (IH j Hj Hlt Hle).
    - intros _. now apply single_ord_returns_well. }
  assert (Hadditive : well (Rule Additive) i).
  { apply rule_returns_well. simpl arith_base.
    apply ord_returns_well.
    - apply (seq_returns_well ArithRule arith_base context len_size_t
               inside may_leave); [exact Hi|exact Hmulticative|].
      apply operator_well; [simpl; tauto|exact Hi|].
      intros j Hj Hlt Hle. apply (IH j Hj Hlt Hle).
    - intros _. now apply single_ord_returns_well. }
  repeat split; auto.
Qed.

Lemma arith_rules_well (n : nat) :
  forall i,
    inside i ->
    (N.to_nat (array_len context - i) <= n)%nat ->
    well (Rule Digit) i /\ well (Rule Number) i /\ well (Rule Primary) i /\
    well (Rule Multicative) i /\ well (Rule Additive) i.
Proof.
  induction n as [|n IH]; intros i Hi Hn; apply arith_step; try exact Hi;
    intros j Hj Hlt Hle.
  - lia.
  - destruct (IH j Hj) as [_ [_ H]]; [lia|exact H].
Qed.

(** [Toplevel]: the anchors around [Additive]. *)
Lemma toplevel_returns i :
  inside i ->
  exists out,
    returns arith_base (Rule Toplevel) context i out /\
    (out = Undefined -> may_leave).
Proof.
  intros Hi.
  destruct (N.eq_dec i 0) as [->|Hne].
  - destruct (arith_rules_well (N.to_nat (array_len context - 0)) 0 Hi
                (Nat.le_refl _)) as [_ [_ [_ [_ [ra [Ha Hres]]]]]].
    assert (Htop : forall out,
               seq_after (returns arith_base (Seq (Rule Additive) [End])
                                  context) 0 (Done (Some 0)) out ->
               returns arith_base (Rule Toplevel) context 0 out).
    { intros out H. apply returns_rule. simpl arith_base.
      apply returns_seq_cons. exists (Done (Some 0)).
      split; [now apply returns_start|exact H]. }
    assert (Hinner : forall r,
               seq_after (returns arith_base End context) 0 ra r ->
               returns arith_base (Seq (Rule Additive) [End]) context 0 r).
    { intros r H. apply returns_seq2. now exists ra. }
    destruct Hres as [->|[[k [-> _]]|[-> Hleave]]].
    + exists (Done None). split; [|discriminate].
      apply Htop. simpl. exists (Done None). split; [|reflexivity].
      now apply Hinner.
    + eexists. split.
      * apply Htop. simpl. eexists. split; [|reflexivity].
        apply Hinner. simpl. eexists. split; [|reflexivity].
        apply returns_end. reflexivity.
      * destruct (sv_size context <=? size_add 0 k); discriminate.
    + exists Undefined. split; [|now intros _].
      apply Htop. simpl. exists Undefined. split; [|reflexivity].
      now apply Hinner.
  - exists (Done None). split; [|discriminate].
    apply returns_rule. simpl arith_base.
    apply returns_seq_cons. exists (Done None). split; [|reflexivity].
    apply returns_start. apply N.eqb_neq in Hne. now rewrite Hne.
Qed.

Lemma arith_returns rule i :
  inside i ->
  exists out,
    returns arith_base (Rule rule) context i out /\
    (out = Undefined -> may_leave).
Proof.
  intros Hi.
  destruct (arith_rules_well (N.to_nat (array_len context - i)) i Hi
              (Nat.le_refl _)) as [Hd [Hn [Hp [Hm Ha]]]].
  assert (Hwell : forall g, well g i ->
             exists out, returns arith_base g context i out /\
                         (out = Undefined -> may_leave)).
  { intros g [out [Hret Hres]]. exists out. split; [exact Hret|].
    intros ->. destruct Hres as [E|[[k [E _]]|[_ Hleave]]];
      try discriminate; exact Hleave. }
  destruct rule; try (now apply Hwell).
  now apply toplevel_returns.
Qed.

End Arith.

Lemma returns_char {Name : Type} (base : Name -> Grammar Name)
    (context : string_view) (C : char) (index : size_t) :
  returns base (Char C) context index
    match sv_at context index with
    | Some c => Done (if (c =? C)%Z then Some 1 else None)
    | None => Undefined
    end.
Proof.
  split.
  - destruct (sv_at context index) as [c|]; discriminate.
  - now exists 1%nat.
Qed.

(** X17.  The arithmetic grammar of [main.cpp] terminates: for every
    well-formed view and every offset, the call of every rule ([Digit],
    [Number], [Additive], [Multicative], [Primary], [Toplevel]) returns,
    with a result or at a read outside the array.  The recursion through
    the rules is bounded because every recursive call is made after a
    character has been consumed. *)
Theorem arithmetic_grammar_terminates :
  forall (context : string_view) (rule : ArithRule) (index : size_t),
    sv_wf context ->
    is_size_t index ->
    exists out, returns arith_base (Rule rule) context index out.
Proof.
  intros context rule index [_ Hlen] Hindex.
  assert (Hnext : forall i c, sv_at context i = Some c ->
             1 <= 1 /\ i + 1 <= array_len context /\ is_size_t (i + 1)).
  { intros i c Hc.
    pose proof (sv_at_in_array context i c Hc) as Hin.
    repeat split; [discriminate|exact Hin|].
    unfold is_size_t in *. lia. }
  destruct (arith_returns context Hlen is_size_t True (fun i H => H))
    with (rule := rule) (i := index) as [out [Hout _]];
    [| |exact Hindex|now exists out].
  - intros i Hi. eexists. split; [apply returns_char_range|].
    destruct (sv_at context i) as [c|] eqn:Hc;
      [|right; right; now split].
    destruct (in_range (lit "0") (lit "9") c); [|now left].
    right. left. exists 1. split; [reflexivity|]. now apply (Hnext i c).
  - intros C i _ Hi. eexists. split; [apply returns_char|].
    destruct (sv_at context i) as [c|] eqn:Hc;
      [|right; right; now split].
    destruct (c =? C)%Z; [|now left].
    right. left. exists 1. split; [reflexivity|]. now apply (Hnext i c).
Qed.

Lemma arithmetic_grammar_terminates_witness :
  exists out,
    returns arith_base (Rule Toplevel) (sv_exact (chars_of_string "1+")) 0
            out.
Proof.
  apply arithmetic_grammar_terminates.
  - split; [vm_compute; discriminate|reflexivity].
  - reflexivity.
Defined.

(** X18.  On a zero-terminated array the arithmetic grammar never reads
    outside the array: for every view into an array that ends with a zero
    character (a string literal, as in [main]) and every offset up to that
    zero, the call of every rule returns a result, success or failure.
    No rule consumes the zero, so no read goes past it. *)
Theorem arithmetic_grammar_defined_on_literals :
  forall (body : list char) (size : size_t) (rule : ArithRule)
         (index : size_t),
    let context := {| sv_data := body ++ [0%Z]; sv_size := size |} in
    is_size_t (array_len context) ->
    index < array_len context ->
    exists r, returns arith_base (Rule rule) context index (Done r).
Proof.
  intros body size rule index context Hlen Hindex.
  assert (Hlast : forall i c,
             sv_at context i = Some c -> i + 1 = array_len context ->
             c = 0%Z).
  { intros i c Hc Hi. unfold sv_at, array_len, context in *. simpl in *.
    rewrite length_app in Hi. simpl in Hi.
    replace (N.to_nat i) with (List.length body + 0)%nat in Hc by lia.
    rewrite nth_error_app2 in Hc by lia.
    replace (List.length body + 0 - List.length body)%nat with 0%nat in Hc
      by lia.
    simpl in Hc. congruence. }
  assert (Hread : forall i, i < array_len context ->
             exists c, sv_at context i = Some c).
  { intros i Hi. unfold sv_at.
    destruct (nth_error (sv_data context) (N.to_nat i)) as [c|] eqn:E;
      [now exists c|].
    apply nth_error_None in E. unfold array_len in Hi. lia. }
  assert (Hnext : forall i c,
             sv_at context i = Some c -> c <> 0%Z ->
             1 <= 1 /\ i + 1 <= array_len context /\
             i + 1 < array_len context).
  { intros i c Hc Hnz.
    pose proof (sv_at_in_array context i c Hc) as Hin.
    assert (i + 1 <> array_len context).
    { intros E. now apply Hnz, (Hlast i c). }
    repeat split; [discriminate|exact Hin|lia]. }
  destruct (arith_returns context Hlen (fun i => i < array_len context)
              False)
    with (rule := rule) (i := index) as [out [Hout Hdef]].
  - intros i Hi. unfold is_size_t in *. lia.
  - intros i Hi. eexists. split; [apply returns_char_range|].
    destruct (Hread i Hi) as [c Hc]. rewrite Hc.
    destruct (in_range (lit "0") (lit "9") c) eqn:Hr; [|now left].
    right. left. exists 1. split; [reflexivity|].
    apply (Hnext i c Hc). intros ->. discriminate Hr.
  - intros C i HC Hi. eexists. split; [apply returns_char|].
    destruct (Hread i Hi) as [c Hc]. rewrite Hc.
    destruct (c =? C)%Z eqn:HcC; [|now left].
    right. left. exists 1. split; [reflexivity|].
    apply (Hnext i c Hc). intros ->.
    simpl in HC.
    destruct HC as [<-|[<-|[<-|[<-|[]]]]]; discriminate HcC.
  - exact Hindex.
  - destruct out as [r| |].
    + now exists r.
    + exfalso. now apply Hdef.
    + destruct Hout as [Hout _]. congruence.
Qed.

Lemma arithmetic_grammar_defined_on_literals_witness :
  exists r,
    returns arith_base (Rule Toplevel)
            {| sv_data := chars_of_string "2*(3+4" ++ [0%Z]; sv_size := 6 |}
            0 (Done r).
Proof.
  apply (arithmetic_grammar_defined_on_literals
           (chars_of_string "2*(3+4") 6 Toplevel 0).
  - reflexivity.
  - reflexivity.
Defined.

(** ** Repetition does not give back *)

(** X19.  A repetition followed by its own clause never succeeds: the loop
    of [Asterisk<sub>] or [Plus<sub>] stops only where [sub] fails, and the
    sequence does not go back to a shorter repetition.  So
    [Seq<Asterisk<sub>, sub>] and [Seq<Plus<sub>, sub>] fail or end at a
    read outside the array. *)
Theorem repetition_then_clause_never_succeeds :
  forall (Name : Type) (base : Name -> Grammar Name) (sub : Grammar Name)
         (context : string_view) (index : size_t) (out : matched),
    returns base (Seq (Asterisk sub) [sub]) context index out \/
    returns base (Seq (Plus sub) [sub]) context index out ->
    out = Done None \/ out = Undefined.
Proof.
  intros Name base sub context index out H.
  assert (Hgen : forall rep,
             (forall ka, returns base rep context index (Done (Some ka)) ->
                returns base sub context (size_add index ka) (Done None)) ->
             returns base (Seq rep [sub]) context index out ->
             out = Done None \/ out = Undefined).
  { intros rep Hgreedy Hseq. apply returns_seq2 in Hseq.
    destruct Hseq as [[[ka|]| |] [Ha Hafter]]; simpl in Hafter;
      try contradiction; try (now left); try (now right).
    destruct Hafter as [rb [Hb ->]].
    rewrite (returns_unique _ _ _ _ _ _ _ Hb (Hgreedy ka Ha)).
    now left. }
  destruct H as [H|H].
  - apply (Hgen (Asterisk sub)); [|exact H].
    intros ka Ha. apply returns_asterisk in Ha.
    destruct Ha as [[t| |] [Hends E]]; simpl in E; try discriminate.
    injection E as ->.
    now apply (loop_ends_at_failure _ _ _ _ _ _ _ Hends).
  - apply (Hgen (Plus sub)); [|exact H].
    intros ka Ha. apply returns_plus in Ha.
    destruct Ha as [[[k1|]| |] [H1 Hafter]]; simpl in Hafter;
      try discriminate; try contradiction.
    destruct Hafter as [[t| |] [Hends E]]; simpl in E; try discriminate.
    injection E as ->.
    now apply (loop_ends_at_failure _ _ _ _ _ _ _ Hends).
Qed.

Lemma repetition_then_clause_never_succeeds_witness :
  returns arith_base (Seq (Asterisk (Rule Digit)) [Rule Digit])
          (sv_of_literal "123") 0 (Done None) /\
  ((Done None : matched) = Done None \/ (Done None : matched) = Undefined).
Proof.
  assert (H : returns arith_base (Seq (Asterisk (Rule Digit)) [Rule Digit])
                      (sv_of_literal "123") 0 (Done None)).
  { split; [discriminate|now exists 8%nat]. }
  split; [exact H|].
  apply (repetition_then_clause_never_succeeds ArithRule arith_base
           (Rule Digit) (sv_of_literal "123") 0 (Done None)).
  left. exact H.
Defined.

(** X20.  [Plus] of [Plus] is [Plus]: at every [size_t] offset,
    [Plus<Plus<sub>>] returns what [Plus<sub>] returns.  The inner loop
    stops where [sub] fails, so the second call of the inner [Plus] fails
    and the outer loop makes one iteration. *)
Theorem plus_idempotent :
  forall (Name : Type) (base : Name -> Grammar Name) (sub : Grammar Name)
         (context : string_view) (index : size_t) (out : matched),
    is_size_t index ->
    (returns base (Plus (Plus sub)) context index out <->
     returns base (Plus sub) context index out).
Proof.
  intros Name base sub context index out Hi.
  pose proof (size_add_0_r index Hi) as E0.
  assert (Hstop : forall t,
             returns base (Plus sub) context index (Done (Some t)) ->
             size_add 0 t = t /\
             returns base (Plus sub) context
                     (size_add index (size_add 0 t)) (Done None)).
  { intros t Ht.
    assert (Et : size_add 0 t = t).
    { rewrite size_add_comm. apply size_add_0_r.
      now apply (returns_small _ _ _ _ _ _ Ht). }
    split; [exact Et|]. rewrite Et.
    apply returns_plus_none.
    rewrite (size_add_0_r _ (size_add_is_size_t index t)).
    apply returns_plus in Ht.
    destruct Ht as [[[k1|]| |] [H1 Hafter]]; simpl in Hafter;
      try discriminate; try contradiction.
    destruct Hafter as [[t'| |] [Hends E]]; simpl in E; try discriminate.
    injection E as <-.
    now apply (loop_ends_at_failure _ _ _ _ _ _ _ Hends). }
  rewrite (returns_plus _ _ _ (Plus sub)). rewrite E0. split.
  - intros [[[t|]| |] [H1 Hafter]]; simpl in Hafter;
      try contradiction; try (now subst out).
    destruct Hafter as [out' [Hends ->]].
    destruct (Hstop t H1) as [Et Hfail].
    inversion Hends as [count Hsub|count Hsub|count k o Hsub Hends']; subst.
    + simpl. now rewrite Et.
    + pose proof (returns_unique _ _ _ _ _ _ _ Hsub Hfail). discriminate.
    + pose proof (returns_unique _ _ _ _ _ _ _ Hsub Hfail). discriminate.
  - intros H. exists out. split; [exact H|].
    destruct out as [[t|]| |]; simpl; try reflexivity.
    + destruct (Hstop t H) as [Et Hfail].
      exists (Done (size_add 0 t)). split; [now apply loop_stop|].
      simpl. now rewrite Et.
    + destruct H as [H _]. congruence.
Qed.

Lemma plus_idempotent_witness :
  returns arith_base (Plus (Plus (Rule Digit))) (sv_of_literal "42+") 0
          (Done (Some 2)).
Proof.
  apply (plus_idempotent ArithRule arith_base (Rule Digit)
           (sv_of_literal "42+") 0 (Done (Some 2)) eq_refl).
  split; [discriminate|now exists 5%nat].
Defined.
